(** * testingon_converter: the stage-field parser and the structured-output
    recoverer of [main.py], embedded in Rocq.

    Python values are modelled as the interpreter has them:
    - a [str] is a list of Unicode code points ([pystr]);
    - the objects [json.loads] builds are the inductive [pyval], a [dict]
      being an insertion-ordered association list with unique keys;
    - a function that may raise returns a [result];
    - the limits of the interpreter are part of the model: [int] refuses a
      decimal literal of more than 4300 digits, and [json.loads] takes the
      number of nested containers that the recursion limit still allows;
    - the regular expressions of the program are terms of [Re.regex], run
      by a backtracking matcher with Python's ordered-choice semantics;
    - the data and services of the Python runtime that the program only
      consumes (the HTML5 entity table, the Unicode database above ASCII and
      ElementTree's XML parser) are the fields of a record [runtime], over
      which every definition of the stage-field parser is parameterised. *)

From Stdlib Require Import String Ascii DecimalString.
From Stdlib Require Import NArith ZArith Bool Lia List FunInd.
Import ListNotations.

(* ================================================================= *)
(** ** Python strings *)

Module PyStr.

Definition pystr := list N.

(** [str "abc"] is the Python literal ['abc'] (ASCII literals only). *)
Definition str (s : string) : pystr := map N_of_ascii (list_ascii_of_string s).

(** One code point, written as a character. *)
Definition chr (a : ascii) : N := N_of_ascii a.

(** The double quote, U+0022. *)
Definition DQUOTE : N := 34%N.

(** [qstr "{'a': 1}"] is the Python literal ['{"a": 1}']: an apostrophe in
    the Rocq literal stands for a double quote of the text. *)
Definition qstr (s : string) : pystr :=
  map (fun c => if N.eqb c 39 then DQUOTE else c) (str s).

Definition in_range (lo hi c : N) : bool := (N.leb lo c && N.leb c hi)%bool.

(** [str.isspace] on one code point, which is also what [\s] matches in a
    [str] pattern and what [str.strip] removes. *)
Definition isspace (c : N) : bool :=
  in_range 9 13 c || in_range 28 32 c || N.eqb c 133 || N.eqb c 160
  || N.eqb c 5760 || in_range 8192 8202 c || N.eqb c 8232 || N.eqb c 8233
  || N.eqb c 8239 || N.eqb c 8287 || N.eqb c 12288.

Fixpoint lstrip (s : pystr) : pystr :=
  match s with
  | c :: s' => if isspace c then lstrip s' else s
  | [] => []
  end.

Fixpoint rstrip (s : pystr) : pystr :=
  match s with
  | [] => []
  | c :: s' =>
      match rstrip s' with
      | [] => if isspace c then [] else [c]
      | r => c :: r
      end
  end.

(** [s.strip()] *)
Definition strip (s : pystr) : pystr := rstrip (lstrip s).

Definition pystr_eqb (a b : pystr) : bool :=
  if list_eq_dec N.eq_dec a b then true else false.

Fixpoint startswith (p s : pystr) : bool :=
  match p, s with
  | [], _ => true
  | a :: p', b :: s' => N.eqb a b && startswith p' s'
  | _ :: _, [] => false
  end.

(** [needle in hay] *)
Fixpoint contains (needle hay : pystr) : bool :=
  startswith needle hay ||
  match hay with
  | [] => false
  | _ :: hay' => contains needle hay'
  end.

(** [c in s] for one code point. *)
Definition mem (c : N) (s : pystr) : bool := existsb (N.eqb c) s.

Definition is_ascii_upper (c : N) : bool := in_range 65 90 c.
Definition is_ascii_lower (c : N) : bool := in_range 97 122 c.
Definition is_ascii_digit (c : N) : bool := in_range 48 57 c.
Definition is_ascii_alnum (c : N) : bool :=
  is_ascii_upper c || is_ascii_lower c || is_ascii_digit c.
Definition is_hex_digit (c : N) : bool :=
  is_ascii_digit c || in_range 65 70 c || in_range 97 102 c.

Definition ascii_lower (c : N) : N :=
  if is_ascii_upper c then (c + 32)%N else c.

(** Equality of a code point [x] of the text with an ASCII character [c] of
    a pattern under [re.IGNORECASE]: the two cases of a letter, and the
    three letters that have further case-equivalents (U+017F for s, U+212A
    for k, U+0130 and U+0131 for i). *)
Definition ci_eq (c x : N) : bool :=
  N.eqb (ascii_lower x) (ascii_lower c)
  || (N.eqb (ascii_lower c) (chr "s") && N.eqb x 383)
  || (N.eqb (ascii_lower c) (chr "k") && N.eqb x 8490)
  || (N.eqb (ascii_lower c) (chr "i") && (N.eqb x 304 || N.eqb x 305)).

(** [''.join(parts)] *)
Definition join_empty (parts : list pystr) : pystr := concat parts.

(** The value of a string of decimal digits, [int(s)]. *)
Definition digit_val (c : N) : N :=
  if is_ascii_digit c then (c - 48)%N
  else if in_range 65 70 c then (c - 55)%N
  else (c - 87)%N.

Definition int_of_digits (base : N) (s : pystr) : N :=
  fold_left (fun acc c => (acc * base + digit_val c)%N) s 0%N.

(** [sys.int_info.default_max_str_digits]: [int] refuses a decimal string
    of more digits. *)
Definition int_max_str_digits : nat := 4300.

(** [str(n)] for a natural number. *)
Definition decimal (n : nat) : pystr :=
  str (NilEmpty.string_of_uint (Nat.to_uint n)).

(** [f"{n:03d}"]: decimal, padded with zeros on the left to three digits. *)
Definition format_03d (n : nat) : pystr :=
  let d := decimal n in
  repeat (chr "0") (3 - length d) ++ d.

End PyStr.
Import PyStr.

(* ================================================================= *)
(** ** Exceptions *)

(** The exceptions that the modelled code raises, one constructor per
    [raise] site of [main.py] and per library exception. *)
Inductive exn : Type :=
| NoJsonFound            (* ValueError("No JSON object found in model output.") *)
| NotAnObject            (* ValueError("Extracted JSON is not an object/dict.") *)
| TopLevelNotObject      (* ValueError("Top-level JSON must be an object/dict.") *)
| MissingTopLevelKeys (missing : list pystr)
                         (* ValueError("Output JSON missing required top-level keys: ...") *)
| MissingStepsList       (* ValueError("Output JSON must include non-empty 'automated_steps' list.") *)
| StepNotObject (i : nat)               (* ValueError("AutomatedStep[i] must be an object.") *)
| StepMissingKey (i : nat) (k : pystr)  (* ValueError("AutomatedStep[i] missing 'k'.") *)
| ParamsNotList (i : nat)               (* ValueError("AutomatedStep[i].params must be a list.") *)
| JSONDecodeError (msg : string)        (* json.JSONDecodeError, a ValueError *)
| IntStrDigitsLimit                     (* ValueError("Exceeds the limit (4300 digits) for integer string conversion") *)
| RecursionError                        (* RecursionError: the recursion limit of the interpreter *)
| OutOfFuel                             (* no exception of the program: the bound of the
                                           scanner's model, which [Json.loads] never reaches *)
| ParseError                            (* xml.etree.ElementTree.ParseError *)
| OtherError (msg : string).            (* any other Exception of a library *)

Inductive result (A : Type) : Type :=
| Ok (a : A)
| Raise (e : exn).

Arguments Ok {A} a.
Arguments Raise {A} e.

Definition bind {A B : Type} (m : result A) (f : A -> result B) : result B :=
  match m with
  | Ok a => f a
  | Raise e => Raise e
  end.

Declare Scope result_scope.
Delimit Scope result_scope with result.
Notation "x <- m ;; f" := (bind m (fun x => f))
  (at level 61, m at next level, right associativity) : result_scope.
Notation "' p <- m ;; f" := (bind m (fun p => f))
  (at level 61, p pattern, m at next level, right associativity) : result_scope.

(** [try: body  except Exception: handler] *)
Definition try_except {A : Type} (body : result A) (handler : exn -> result A)
    : result A :=
  match body with
  | Ok a => Ok a
  | Raise e => handler e
  end.

(** [int(digits)] and [int(digits, 16)]: only the conversion from a base
    that is not a power of two is limited. *)
Definition py_int (base : N) (digits : pystr) : result N :=
  if N.eqb base 10 && Nat.ltb int_max_str_digits (length digits)
  then Raise IntStrDigitsLimit
  else Ok (int_of_digits base digits).

(* ================================================================= *)
(** ** Regular expressions ([re]) *)

Module Re.

(** A character class, as its membership test. *)
Definition cset := N -> bool.

(** The fragment of Python's pattern language that the program uses.
    Quantifiers apply to one-character atoms, which is all the patterns of
    [main.py] and of [html.unescape] need. *)
Inductive regex : Type :=
| Eps : regex                                       (* the empty pattern *)
| Chr : cset -> regex                               (* one character of a class *)
| Rep : cset -> nat -> option nat -> bool -> regex  (* c{lo,hi}, greedy or lazy *)
| Cat : regex -> regex -> regex                     (* r1 r2 *)
| Alt : regex -> regex -> regex                     (* r1|r2 *)
| NotAhead : regex -> regex                         (* (?!r) *)
| WordB : cset -> regex.                            (* \b, for a class of word characters *)

(** A continuation receives the character before the current position (for
    [\b]) and the rest of the text. *)
Definition cont := option N -> pystr -> option pystr.

Definition accept : cont := fun _ rest => Some rest.

Definition exhausted (hi : option nat) : bool :=
  match hi with Some O => true | _ => false end.

(** [c{lo,hi}] followed by [k]: a greedy quantifier first tries to take one
    more character and falls back to stopping, a lazy one first tries to
    stop. *)
Fixpoint rep (p : cset) (greedy : bool) (lo : nat) (hi : option nat)
    (prev : option N) (s : pystr) (k : cont) {struct s} : option pystr :=
  if greedy then
    match
      match s with
      | c :: s' =>
          if p c && negb (exhausted hi)
          then rep p greedy (pred lo) (option_map pred hi) (Some c) s' k
          else None
      | [] => None
      end
    with
    | Some r => Some r
    | None => match lo with O => k prev s | S _ => None end
    end
  else
    match match lo with O => k prev s | S _ => None end with
    | Some r => Some r
    | None =>
        match s with
        | c :: s' =>
            if p c && negb (exhausted hi)
            then rep p greedy (pred lo) (option_map pred hi) (Some c) s' k
            else None
        | [] => None
        end
    end.

Definition is_word_at (w : cset) (c : option N) : bool :=
  match c with Some x => w x | None => false end.

(** The backtracking matcher: [exec r prev s k] matches [r] at the head of
    [s] ([prev] is the character before it) and hands what is left to [k];
    alternatives are tried in order. *)
Fixpoint exec (r : regex) (prev : option N) (s : pystr) (k : cont)
    {struct r} : option pystr :=
  match r with
  | Eps => k prev s
  | Chr p =>
      match s with
      | c :: s' => if p c then k (Some c) s' else None
      | [] => None
      end
  | Rep p lo hi g => rep p g lo hi prev s k
  | Cat r1 r2 => exec r1 prev s (fun prev' s' => exec r2 prev' s' k)
  | Alt r1 r2 =>
      match exec r1 prev s k with
      | Some x => Some x
      | None => exec r2 prev s k
      end
  | NotAhead r1 =>
      match exec r1 prev s accept with
      | Some _ => None
      | None => k prev s
      end
  | WordB w =>
      if xorb (is_word_at w prev) (is_word_at w (hd_error s))
      then k prev s else None
  end.

(** [pattern.match(text, pos)]: the text left after the match. *)
Definition match_at (r : regex) (prev : option N) (s : pystr) : option pystr :=
  exec r prev s accept.

(** The part of [s] that a match leaving [rest] consumed. *)
Definition consumed (s rest : pystr) : pystr :=
  firstn (length s - length rest) s.

(** [re.search]: the leftmost position where the pattern matches; the
    result is the text before the match, the match and the text after. *)
Fixpoint search_from (r : regex) (prev : option N) (before : pystr)
    (s : pystr) : option (pystr * pystr * pystr) :=
  match match_at r prev s with
  | Some rest => Some (rev before, consumed s rest, rest)
  | None =>
      match s with
      | [] => None
      | c :: s' => search_from r (Some c) (c :: before) s'
      end
  end.

Definition search (r : regex) (s : pystr) : option (pystr * pystr * pystr) :=
  search_from r None [] s.

(** The scan behind [re.sub]: the text cut into the characters that are
    kept and the non-overlapping matches, from left to right. [skip] counts
    the characters of the current match that are still to be passed over.
    After an empty match the scan moves one character on. *)
Inductive piece : Type :=
| Keep (c : N)
| Hit (m : pystr).

Fixpoint pieces_from (r : regex) (skip : nat) (prev : option N) (s : pystr)
    : list piece :=
  match s with
  | [] =>
      match skip with
      | O => match match_at r prev [] with Some _ => [Hit []] | None => [] end
      | S _ => []
      end
  | c :: s' =>
      match skip with
      | S n => pieces_from r n (Some c) s'
      | O =>
          match match_at r prev s with
          | Some rest =>
              match length s - length rest with
              | O => Hit [] :: Keep c :: pieces_from r 0 (Some c) s'
              | S n => Hit (consumed s rest) :: pieces_from r n (Some c) s'
              end
          | None => Keep c :: pieces_from r 0 (Some c) s'
          end
      end
  end.

Definition pieces (r : regex) (s : pystr) : list piece := pieces_from r 0 None s.

(** [re.sub(pattern, repl, s)] with a constant replacement. *)
Definition sub (r : regex) (repl : pystr) (s : pystr) : pystr :=
  flat_map (fun p => match p with Keep c => [c] | Hit _ => repl end) (pieces r s).

(** [re.sub(pattern, f, s)] with a replacement function, which is called on
    the matches in order and may raise. *)
Fixpoint render (repl : pystr -> result pystr) (ps : list piece) : result pystr :=
  match ps with
  | [] => Ok []
  | Keep c :: ps' => (out <- render repl ps' ;; Ok (c :: out))%result
  | Hit m :: ps' =>
      (v <- repl m ;; out <- render repl ps' ;; Ok (v ++ out))%result
  end.

Definition sub_fun (r : regex) (repl : pystr -> result pystr) (s : pystr)
    : result pystr :=
  render repl (pieces r s).

(** *** Pattern building *)

Definition ch (a : ascii) : cset := N.eqb (chr a).
Definition not_ch (a : ascii) : cset := fun c => negb (N.eqb (chr a) c).
Definition any : cset := fun _ => true.
Definition one_of (s : string) : cset := fun c => mem c (str s).

(** A literal string, and the same under [re.IGNORECASE]. *)
Fixpoint lit_of (eq : N -> cset) (s : pystr) : regex :=
  match s with
  | [] => Eps
  | [c] => Chr (eq c)
  | c :: s' => Cat (Chr (eq c)) (lit_of eq s')
  end.

Definition lit (s : string) : regex := lit_of N.eqb (str s).
Definition litI (s : string) : regex := lit_of ci_eq (str s).

Definition plus (p : cset) : regex := Rep p 1 None true.      (* c+ *)
Definition star (p : cset) : regex := Rep p 0 None true.      (* c* *)
Definition star_lazy (p : cset) : regex := Rep p 0 None false. (* c*? *)
Definition opt (p : cset) : regex := Rep p 0 (Some 1) true.   (* c? *)

End Re.

(* ================================================================= *)
(** ** [html.unescape] *)

Module Html.
Import Re.
Local Open Scope N_scope.

(** [html._invalid_charrefs] *)
Definition invalid_charrefs : list (N * N) :=
  [ (0x00, 0xfffd); (0x0d, 0x0d); (0x80, 0x20ac); (0x81, 0x81);
    (0x82, 0x201a); (0x83, 0x0192); (0x84, 0x201e); (0x85, 0x2026);
    (0x86, 0x2020); (0x87, 0x2021); (0x88, 0x02c6); (0x89, 0x2030);
    (0x8a, 0x0160); (0x8b, 0x2039); (0x8c, 0x0152); (0x8d, 0x8d);
    (0x8e, 0x017d); (0x8f, 0x8f); (0x90, 0x90); (0x91, 0x2018);
    (0x92, 0x2019); (0x93, 0x201c); (0x94, 0x201d); (0x95, 0x2022);
    (0x96, 0x2013); (0x97, 0x2014); (0x98, 0x02dc); (0x99, 0x2122);
    (0x9a, 0x0161); (0x9b, 0x203a); (0x9c, 0x0153); (0x9d, 0x9d);
    (0x9e, 0x017e); (0x9f, 0x0178) ].

Definition lookup_charref (n : N) : option N :=
  option_map snd (find (fun p => N.eqb (fst p) n) invalid_charrefs).

(** [html._invalid_codepoints] *)
Definition invalid_codepoints (n : N) : bool :=
  in_range 0x1 0x8 n || in_range 0xe 0x1f n || in_range 0x7f 0x9f n
  || in_range 0xfdd0 0xfdef n || N.eqb n 0xb
  || (in_range 0xfffe 0x10ffff n && in_range 0xfffe 0xffff (N.land n 0xffff)).

(** [_charref]: &(#[0-9]+;?|#[xX][0-9a-fA-F]+;?|[^\t\n\f <&#;]{1,32};?) *)
Definition name_char : cset :=
  fun c => negb (mem c [9; 10; 12; 32; chr "<"; chr "&"; chr "#"; chr ";"]).

Definition charref : regex :=
  Cat (Chr (ch "&"))
    (Alt (Cat (Chr (ch "#")) (Cat (plus is_ascii_digit) (opt (ch ";"))))
    (Alt (Cat (Chr (ch "#")) (Cat (Chr (one_of "xX"))
                             (Cat (plus is_hex_digit) (opt (ch ";")))))
         (Cat (Rep name_char 1 (Some 32%nat) true) (opt (ch ";"))))).

(** [s.rstrip(';')] *)
Fixpoint rstrip_semicolon (s : pystr) : pystr :=
  match s with
  | [] => []
  | c :: s' =>
      match rstrip_semicolon s' with
      | [] => if N.eqb c (chr ";") then [] else [c]
      | r => c :: r
      end
  end.

Definition numeric_charref (num : N) : pystr :=
  match lookup_charref num with
  | Some c => [c]
  | None =>
      if in_range 0xD800 0xDFFF num || N.ltb 0x10FFFF num then [0xFFFD]
      else if invalid_codepoints num then []
      else [num]
  end.

Section Named.

(** [html.entities.html5], as its lookup. *)
Variable html5 : pystr -> option pystr.

(** [for x in range(len(s)-1, 1, -1): if s[:x] in _html5: ...] *)
Fixpoint longest_name (s : pystr) (x : nat) : option pystr :=
  match x with
  | S x' =>
      if Nat.leb 2 x then
        match html5 (firstn x s) with
        | Some v => Some (v ++ skipn x s)
        | None => longest_name s x'
        end
      else None
  | O => None
  end.

(** [_replace_charref], given [s = m.group(1)]. *)
Definition replace_charref (s : pystr) : result pystr :=
  match s with
  | c :: s1 =>
      if N.eqb c (chr "#") then
        match s1 with
        | x :: s2 =>
            (num <- (if mem x (str "xX")
                     then py_int 16 (rstrip_semicolon s2)
                     else py_int 10 (rstrip_semicolon s1)) ;;
             Ok (numeric_charref num))%result
        | [] => Ok [chr "&"; c]
        end
      else
        match html5 s with
        | Some v => Ok v
        | None =>
            match longest_name s (length s - 1) with
            | Some v => Ok v
            | None => Ok (chr "&" :: s)
            end
        end
  | [] => Ok [chr "&"]
  end.

(** [html.unescape] *)
Definition unescape (s : pystr) : result pystr :=
  if mem (chr "&") s
  then sub_fun charref (fun m => replace_charref (tl m)) s
  else Ok s.

End Named.

End Html.

(* ================================================================= *)
(** ** Python objects and [json.loads] *)

Module Json.
Local Open Scope N_scope.

(** A [float] built from a JSON literal: the literal's sign, digits and
    decimal exponent, or one of the constants. Only its truth value is ever
    asked for. *)
Inductive pyfloat : Type :=
| FNan
| FInf (neg : bool)
| FDec (neg : bool) (mant : N) (exp10 : Z).

(** The objects [json.loads] returns. A [dict] keeps its keys in insertion
    order and holds each key once. *)
#[warnings="-register-all"]
Inductive pyval : Type :=
| PNone
| PBool (b : bool)
| PInt (z : Z)
| PFloat (f : pyfloat)
| PStr (s : pystr)
| PList (l : list pyval)
| PDict (d : list (pystr * pyval)).

Definition dict := list (pystr * pyval).

(** [float(literal) == 0.0]: the mantissa is zero, or the value is at most
    half the least subnormal, 2^-1075, and rounds to zero. *)
Definition float_is_zero (f : pyfloat) : bool :=
  match f with
  | FDec _ m e =>
      N.eqb m 0
      || (Z.ltb e 0 && Z.leb (Z.of_N m * 2 ^ 1075) (10 ^ (- e)))%Z
  | _ => false
  end.

(** [bool(v)] *)
Definition truthy (v : pyval) : bool :=
  match v with
  | PNone => false
  | PBool b => b
  | PInt z => negb (Z.eqb z 0)
  | PFloat f => negb (float_is_zero f)
  | PStr s => match s with [] => false | _ => true end
  | PList l => match l with [] => false | _ => true end
  | PDict d => match d with [] => false | _ => true end
  end.

Definition is_none (v : pyval) : bool :=
  match v with PNone => true | _ => false end.
Definition is_list (v : pyval) : bool :=
  match v with PList _ => true | _ => false end.
Definition is_dict (v : pyval) : bool :=
  match v with PDict _ => true | _ => false end.

(** *** Dictionaries *)

(** [d.get(k)] *)
Fixpoint dict_get (k : pystr) (d : dict) : option pyval :=
  match d with
  | [] => None
  | (k', v) :: d' => if pystr_eqb k k' then Some v else dict_get k d'
  end.

(** [k in d] *)
Definition dict_has (k : pystr) (d : dict) : bool :=
  match dict_get k d with Some _ => true | None => false end.

(** [d[k] = v]: an existing key keeps its place, a new one goes last. *)
Fixpoint dict_set (k : pystr) (v : pyval) (d : dict) : dict :=
  match d with
  | [] => [(k, v)]
  | (k', v') :: d' =>
      if pystr_eqb k k' then (k', v) :: d' else (k', v') :: dict_set k v d'
  end.

(** [d.pop(k, None)] *)
Fixpoint dict_pop (k : pystr) (d : dict) : dict :=
  match d with
  | [] => []
  | (k', v') :: d' =>
      if pystr_eqb k k' then d' else (k', v') :: dict_pop k d'
  end.

(** [dict(pairs)] *)
Definition dict_of_pairs (pairs : list (pystr * pyval)) : dict :=
  fold_left (fun d kv => dict_set (fst kv) (snd kv) d) pairs [].

(** *** The scanner

    The model follows [json/decoder.py] and [json/scanner.py] with the
    behaviour of the C accelerator that CPython runs: digits are the ASCII
    digits and a unicode escape takes four hexadecimal digits. The message of
    a [JSONDecodeError] is kept as a label; its position is not modelled. *)

Definition is_ws (c : N) : bool := mem c [32; 9; 10; 13].

(** [WHITESPACE.match(s, end).end()] *)
Fixpoint skip_ws (s : pystr) : pystr :=
  match s with
  | c :: s' => if is_ws c then skip_ws s' else s
  | [] => []
  end.

Definition BACKSLASH (c : N) : option N :=
  if N.eqb c DQUOTE then Some DQUOTE
  else if N.eqb c 92 then Some 92
  else if N.eqb c (chr "/") then Some (chr "/")
  else if N.eqb c (chr "b") then Some 8
  else if N.eqb c (chr "f") then Some 12
  else if N.eqb c (chr "n") then Some 10
  else if N.eqb c (chr "r") then Some 13
  else if N.eqb c (chr "t") then Some 9
  else None.

Definition hex4 (a b c d : N) : option N :=
  if forallb is_hex_digit [a; b; c; d]
  then Some (int_of_digits 16 [a; b; c; d]) else None.

Definition unterminated : exn := JSONDecodeError "Unterminated string starting at".
Definition invalid_uXXXX : exn := JSONDecodeError "Invalid \uXXXX escape".

Definition cons_result (c : N) (r : result (pystr * pystr))
    : result (pystr * pystr) :=
  match r with
  | Ok (out, rest) => Ok (c :: out, rest)
  | Raise e => Raise e
  end.

(** [scanstring(s, end)] with [strict=True]: [s] starts after the opening
    quote; the result is the decoded string and the text after the closing
    quote. *)
Fixpoint scanstring (s : pystr) : result (pystr * pystr) :=
  match s with
  | [] => Raise unterminated
  | c :: s1 =>
      if N.eqb c DQUOTE then Ok ([], s1)
      else if N.eqb c 92 then
        match s1 with
        | [] => Raise unterminated
        | e :: s2 =>
            if N.eqb e (chr "u") then
              match s2 with
              | a :: b :: c' :: d :: s6 =>
                  match hex4 a b c' d with
                  | None => Raise invalid_uXXXX
                  | Some uni =>
                      match s6 with
                      | b1 :: u1 :: s8 =>
                          if in_range 0xd800 0xdbff uni && N.eqb b1 92
                             && N.eqb u1 (chr "u")
                          then
                            match s8 with
                            | a2 :: b2 :: c2 :: d2 :: s12 =>
                                match hex4 a2 b2 c2 d2 with
                                | None => Raise invalid_uXXXX
                                | Some uni2 =>
                                    if in_range 0xdc00 0xdfff uni2
                                    then cons_result
                                           (0x10000 + N.lor (N.shiftl (uni - 0xd800) 10)
                                                            (uni2 - 0xdc00))
                                           (scanstring s12)
                                    else cons_result uni (scanstring s6)
                                end
                            | _ => Raise invalid_uXXXX
                            end
                          else cons_result uni (scanstring s6)
                      | _ => cons_result uni (scanstring s6)
                      end
                  end
              | _ => Raise invalid_uXXXX
              end
            else
              match BACKSLASH e with
              | Some ch => cons_result ch (scanstring s2)
              | None => Raise (JSONDecodeError "Invalid \escape")
              end
        end
      else if N.ltb c 32 then Raise (JSONDecodeError "Invalid control character at")
      else cons_result c (scanstring s1)
  end.

(** The longest prefix of characters of a class, and the rest. *)
Fixpoint span (p : N -> bool) (s : pystr) : pystr * pystr :=
  match s with
  | c :: s' =>
      if p c then let (a, b) := span p s' in (c :: a, b) else ([], s)
  | [] => ([], [])
  end.

(** [int(text)] of an optional sign and digits. *)
Definition parse_int (neg : bool) (digits : pystr) : result pyval :=
  (n <- py_int 10 digits ;;
   Ok (PInt (if neg then - Z.of_N n else Z.of_N n)%Z))%result.

(** [NUMBER_RE] and the value of its match: an optional minus sign, then 0
    or a non-zero digit followed by digits; an optional fraction (a dot and
    digits); an optional exponent (e or E, an optional sign, digits).
    [None] when no number starts here. *)
Definition match_number (s : pystr) : option (result pyval * pystr) :=
  let (neg, s1) :=
    match s with
    | c :: t => if N.eqb c (chr "-") then (true, t) else (false, s)
    | [] => (false, s)
    end in
  match s1 with
  | [] => None
  | c :: t =>
      if negb (is_ascii_digit c) then None else
      let (int_digits, s2) :=
        if N.eqb c (chr "0") then ([c], t) else span is_ascii_digit s1 in
      let (frac, s3) :=
        match s2 with
        | dot :: f :: _ =>
            if N.eqb dot (chr ".") && is_ascii_digit f
            then span is_ascii_digit (tl s2) else ([], s2)
        | _ => ([], s2)
        end in
      let '(has_exp, exp_neg, exp_digits, s4) :=
        match s3 with
        | e :: s3' =>
            if mem e (str "eE") then
              let (sign, s3'') :=
                match s3' with
                | sg :: u =>
                    if N.eqb sg (chr "-") then (true, u)
                    else if N.eqb sg (chr "+") then (false, u)
                    else (false, s3')
                | [] => (false, s3')
                end in
              let (ds, rest) := span is_ascii_digit s3'' in
              match ds with
              | [] => (false, false, [], s3)
              | _ => (true, sign, ds, rest)
              end
            else (false, false, [], s3)
        | [] => (false, false, [], s3)
        end in
      match frac, has_exp with
      | [], false => Some (parse_int neg int_digits, s4)
      | _, _ =>
          let e := Z.of_N (int_of_digits 10 exp_digits) in
          Some (Ok (PFloat (FDec neg (int_of_digits 10 (int_digits ++ frac))
                              ((if exp_neg then - e else e)
                               - Z.of_nat (length frac))%Z)),
                s4)
      end
  end.

Definition expecting_value : exn := JSONDecodeError "Expecting value".

(** [scan_once], [JSONObject] and [JSONArray]. A text is passed as what is
    left of it.

    [depth] is the number of nested containers that the interpreter still
    allows. The accelerator enters a recursive call for every object and
    every array ([Py_EnterRecursiveCall] in [scan_once_unicode]), empty ones
    too, and that call raises [RecursionError] once the recursion limit of
    the interpreter is reached; strings, numbers and constants enter none.

    [fuel] bounds the recursion of the model on the nesting and on the
    members. [decode] gives more than the length of the text, which is never
    used up ([scanner_fuel] below), so [OutOfFuel] never leaves [loads]. *)
Fixpoint scan_once (fuel depth : nat) (s : pystr) {struct fuel}
    : result (pyval * pystr) :=
  match fuel with
  | O => Raise OutOfFuel
  | S fuel' =>
      match s with
      | [] => Raise expecting_value
      | c :: s' =>
          if N.eqb c DQUOTE then
            ('(k, rest) <- scanstring s' ;; Ok (PStr k, rest))%result
          else if N.eqb c (chr "{") then
            match depth with
            | O => Raise RecursionError
            | S depth' =>
                (* JSONObject *)
                let s1 := if startswith [DQUOTE] s' then s' else skip_ws s' in
                match s1 with
                | [] => Raise (JSONDecodeError
                          "Expecting property name enclosed in double quotes")
                | q :: s2 =>
                    if N.eqb q (chr "}") then Ok (PDict [], s2)
                    else if N.eqb q DQUOTE then
                      ('(pairs, rest) <- object_members fuel' depth' s2 [] ;;
                       Ok (PDict (dict_of_pairs pairs), rest))%result
                    else Raise (JSONDecodeError
                           "Expecting property name enclosed in double quotes")
                end
            end
          else if N.eqb c (chr "[") then
            match depth with
            | O => Raise RecursionError
            | S depth' =>
                (* JSONArray *)
                let s1 := skip_ws s' in
                if startswith (str "]") s1 then Ok (PList [], tl s1)
                else
                  ('(v, rest) <- scan_once fuel' depth' s1 ;;
                   '(values, rest') <- array_rest fuel' depth' rest [v] ;;
                   Ok (PList values, rest'))%result
            end
          else if startswith (str "null") s then Ok (PNone, skipn 4 s)
          else if startswith (str "true") s then Ok (PBool true, skipn 4 s)
          else if startswith (str "false") s then Ok (PBool false, skipn 5 s)
          else
            match match_number s with
            | Some (r, rest) => (v <- r ;; Ok (v, rest))%result
            | None =>
                if startswith (str "NaN") s then Ok (PFloat FNan, skipn 3 s)
                else if startswith (str "Infinity") s
                then Ok (PFloat (FInf false), skipn 8 s)
                else if startswith (str "-Infinity") s
                then Ok (PFloat (FInf true), skipn 9 s)
                else Raise expecting_value
            end
      end
  end

(** The body of the [while True] of [JSONObject]: [s] starts after the
    opening quote of a key; [depth] is what the members may still nest. *)
with object_members (fuel depth : nat) (s : pystr)
    (pairs : list (pystr * pyval))
    {struct fuel} : result (list (pystr * pyval) * pystr) :=
  match fuel with
  | O => Raise OutOfFuel
  | S fuel' =>
      ('(key, s1) <- scanstring s ;;
       let s2 := if startswith (str ":") s1 then s1 else skip_ws s1 in
       if negb (startswith (str ":") s2)
       then Raise (JSONDecodeError "Expecting ':' delimiter")
       else
         '(value, s3) <- scan_once fuel' depth (skip_ws (tl s2)) ;;
         let pairs' := pairs ++ [(key, value)] in
         match skip_ws s3 with
         | [] => Raise (JSONDecodeError "Expecting ',' delimiter")
         | d :: s4 =>
             if N.eqb d (chr "}") then Ok (pairs', s4)
             else if N.eqb d (chr ",") then
               match skip_ws s4 with
               | q :: s5 =>
                   if N.eqb q DQUOTE then object_members fuel' depth s5 pairs'
                   else Raise (JSONDecodeError
                          "Expecting property name enclosed in double quotes")
               | [] => Raise (JSONDecodeError
                         "Expecting property name enclosed in double quotes")
               end
             else Raise (JSONDecodeError "Expecting ',' delimiter")
         end)%result
  end

(** The rest of the [while True] of [JSONArray], after a value. *)
with array_rest (fuel depth : nat) (s : pystr) (values : list pyval)
    {struct fuel} : result (list pyval * pystr) :=
  match fuel with
  | O => Raise OutOfFuel
  | S fuel' =>
      match skip_ws s with
      | [] => Raise (JSONDecodeError "Expecting ',' delimiter")
      | d :: s1 =>
          if N.eqb d (chr "]") then Ok (values, s1)
          else if N.eqb d (chr ",") then
            ('(v, rest) <- scan_once fuel' depth (skip_ws s1) ;;
             array_rest fuel' depth rest (values ++ [v]))%result
          else Raise (JSONDecodeError "Expecting ',' delimiter")
      end
  end.

(** [JSONDecoder.decode]. [limit] is the number of nested containers that
    the interpreter allows at this call: what is left of
    [sys.getrecursionlimit()] with the frames in use. *)
Definition decode (limit : nat) (s : pystr) : result pyval :=
  ('(obj, rest) <- scan_once (S (length s)) limit (skip_ws s) ;;
   match skip_ws rest with
   | [] => Ok obj
   | _ => Raise (JSONDecodeError "Extra data")
   end)%result.

(** [json.loads(s)] for a [str]. *)
Definition loads (limit : nat) (s : pystr) : result pyval :=
  if startswith [0xfeff] s
  then Raise (JSONDecodeError "Unexpected UTF-8 BOM (decode using utf-8-sig)")
  else decode limit s.

End Json.
Import Json.

(* ================================================================= *)
(** ** [xml.etree.ElementTree] elements *)

Module ET.

(** An [Element]: tag, attributes, the text before the first child, the
    children, and the text after the end tag. [None] is Python's [None]. *)
#[warnings="-register-all"]
Inductive Element : Type :=
| Elem (tag : pystr) (attrib : list (pystr * pystr)) (text : option pystr)
       (children : list Element) (tail : option pystr).

Definition tag_of (e : Element) : pystr := let (t, _, _, _, _) := e in t.
Definition children_of (e : Element) : list Element :=
  let (_, _, _, c, _) := e in c.
Definition tail_of (e : Element) : option pystr := let (_, _, _, _, t) := e in t.

(** [if t: yield t] *)
Definition yield_text (t : option pystr) : list pystr :=
  match t with
  | Some (c :: s) => [c :: s]
  | _ => []
  end.

(** [list(elem.itertext())] *)
Fixpoint itertext (e : Element) : list pystr :=
  match e with
  | Elem _ _ text children _ =>
      yield_text text
      ++ flat_map (fun c => itertext c ++ yield_text (tail_of c)) children
  end.

(** The elements below [e] in document order. *)
Fixpoint descendants (e : Element) : list Element :=
  match e with
  | Elem _ _ _ children _ => flat_map (fun c => c :: descendants c) children
  end.

Definition has_tag (name : pystr) (e : Element) : bool :=
  pystr_eqb (tag_of e) name.

(** [elem.findall(".//name")]: [elem.iter(name)] without [elem] itself. *)
Definition findall_descendants (name : pystr) (e : Element) : list Element :=
  filter (has_tag name) (descendants e).

(** [elem.findall("./name")] *)
Definition findall_children (name : pystr) (e : Element) : list Element :=
  filter (has_tag name) (children_of e).

End ET.
Import ET.

(* ================================================================= *)
(** ** The Python runtime *)

(** What the program takes from the interpreter and its libraries without
    this development looking inside. The Unicode predicates are consulted
    above ASCII only. *)
Record runtime : Type := {
  html5 : pystr -> option pystr;          (* html.entities.html5 *)
  unicode_isalnum : N -> bool;            (* str.isalnum, for \w and \b *)
  unicode_isdecimal : N -> bool;          (* the Unicode digits, for \d *)
  ET_fromstring : pystr -> result Element (* ET.fromstring, which may raise *)
}.

(* ================================================================= *)
(** ** [config.py] *)

Module config.

Definition AZURE_STEPS_FIELD : pystr := str "Microsoft.VSTS.TCM.Steps".

Definition REQUIRED_TOP_LEVEL_KEYS : list pystr :=
  [ str "name"; str "description"; str "preconditions"; str "tags";
    str "automated_steps"; str "artifacts"; str "references";
    str "diagnostics" ].

Definition REQUIRED_STEP_KEYS : list pystr :=
  [ str "id"; str "keyword"; str "params" ].

(** [AZURE_DEVOPS["project"]] and [AZURE_DEVOPS["org"]] as the repository
    ships them. *)
Definition AZURE_DEVOPS_project : pystr := [].
Definition AZURE_DEVOPS_org : pystr := [].

End config.

(* ================================================================= *)
(** ** [main.py]: the structured-output recoverer *)

Local Open Scope result_scope.

(** The pattern of line 69, [\{.*\}] with [re.DOTALL]. *)
Definition json_object_re : Re.regex :=
  Re.Cat (Re.Chr (Re.ch "{")) (Re.Cat (Re.star Re.any) (Re.Chr (Re.ch "}"))).

(** Lines 68-77: the search for a braced region and its decoding. [limit]
    is the nesting that the interpreter allows to [json.loads] when
    [extract_json_object] calls it, the same at line 61 and at line 74. *)
Definition extract_fallback (limit : nat) (text : pystr) : result dict :=
  match Re.search json_object_re text with
  | None => Raise NoJsonFound
  | Some (_, candidate, _) =>
      obj <- Json.loads limit candidate ;;
      match obj with
      | PDict d => Ok d
      | _ => Raise NotAnObject
      end
  end.

(** [extract_json_object] *)
Definition extract_json_object (limit : nat) (text : option pystr)
    : result dict :=
  let text := strip (match text with Some t => t | None => [] end) in
  (* direct *)
  try_except
    (obj <- Json.loads limit text ;;
     match obj with
     | PDict d => Ok d
     | _ => Raise TopLevelNotObject
     end)
    (* except Exception: pass; then the fallback *)
    (fun _ => extract_fallback limit text).

(** The body of the loop of [ensure_step_defaults] for the step [st] at
    position [i] (counted from 1). *)
Definition repair_step (i : nat) (st : dict) : dict :=
  (* Fill missing id *)
  let st :=
    match dict_get (str "id") st with
    | Some v => if truthy v then st
                else dict_set (str "id") (PStr (str "S" ++ format_03d i)) st
    | None => dict_set (str "id") (PStr (str "S" ++ format_03d i)) st
    end in
  (* Ensure required keys exist *)
  let st :=
    match dict_get (str "keyword") st with
    | Some PNone | None => dict_set (str "keyword") (PStr []) st
    | Some _ => st
    end in
  match dict_get (str "params") st with
  | Some PNone | None => dict_set (str "params") (PList []) st
  | Some (PList _) => st
  | Some v => dict_set (str "params") (PList [v]) st
  end.

(** [for i, st in enumerate(steps, start=i)]: steps that are not dicts are
    passed over. *)
Fixpoint repair_steps (i : nat) (steps : list pyval) : list pyval :=
  match steps with
  | [] => []
  | PDict st :: rest => PDict (repair_step i st) :: repair_steps (S i) rest
  | v :: rest => v :: repair_steps (S i) rest
  end.

(** [ensure_step_defaults]: the function mutates the steps in place; here it
    returns the payload as it is afterwards. *)
Definition ensure_step_defaults (payload : dict) : dict :=
  match dict_get (str "automated_steps") payload with
  | Some (PList steps) =>
      dict_set (str "automated_steps") (PList (repair_steps 1 steps)) payload
  | _ => payload
  end.

(** The checks of one step in [validate_payload]. *)
Definition validate_step (i : nat) (st : pyval) : result unit :=
  match st with
  | PDict d =>
      match filter (fun k => negb (dict_has k d)) config.REQUIRED_STEP_KEYS with
      | k :: _ => Raise (StepMissingKey i k)
      | [] =>
          match dict_get (str "params") d with
          | Some (PList _) => Ok tt
          | _ => Raise (ParamsNotList i)
          end
      end
  | _ => Raise (StepNotObject i)
  end.

Fixpoint validate_steps (i : nat) (steps : list pyval) : result unit :=
  match steps with
  | [] => Ok tt
  | st :: rest => _ <- validate_step i st ;; validate_steps (S i) rest
  end.

(** [validate_payload] *)
Definition validate_payload (payload : dict) : result unit :=
  match filter (fun k => negb (dict_has k payload))
               config.REQUIRED_TOP_LEVEL_KEYS with
  | (_ :: _) as missing => Raise (MissingTopLevelKeys missing)
  | [] =>
      match dict_get (str "automated_steps") payload with
      | Some (PList (st :: rest)) => validate_steps 0 (st :: rest)
      | _ => Raise MissingStepsList
      end
  end.

(** A step record of the stage-field parser, the dict
    [{"action": ..., "expected": ...}]. *)
Record StepRecord : Type := { action : pystr; expected : pystr }.

Definition step_to_py (r : StepRecord) : pyval :=
  PDict [(str "action", PStr (action r)); (str "expected", PStr (expected r))].

(** Lines 333-338 of [run_conversion]: [refs] is the [references] dict of
    the payload, or a new dict when there is none; its ["steps"] entry is
    set and the dict is stored back. *)
Definition merge_references (payload : dict) (azure_steps : list StepRecord)
    : dict :=
  let refs :=
    match dict_get (str "references") payload with
    | Some (PDict r) => r
    | _ => []
    end in
  let refs := dict_set (str "steps") (PList (map step_to_py azure_steps)) refs in
  dict_set (str "references") (PDict refs) payload.

(** Lines 341-345: the three [payload.pop(key, None)]. *)
Definition strip_meta_fields (payload : dict) : dict :=
  dict_pop (str "azure_steps")
    (dict_pop (str "required_keys")
       (dict_pop (str "required_top_level_keys") payload)).

(** [run_conversion] from line 328 on, given the text of the model's
    response (the request itself is outside the model); [limit] is the
    nesting that the interpreter allows to the [json.loads] of
    [extract_json_object]. *)
Definition run_conversion (limit : nat) (output_text : pystr)
    (azure_steps : list StepRecord) : result dict :=
  payload <- extract_json_object limit (Some output_text) ;;
  let payload := ensure_step_defaults payload in
  let payload := merge_references payload azure_steps in
  let payload := strip_meta_fields payload in
  _ <- validate_payload payload ;;
  Ok payload.

(* ================================================================= *)
(** ** [main.py]: the stage-field parser *)

Section StageFieldParser.

Variable rt : runtime.

(** [\w] and [\d] of a [str] pattern. *)
Definition is_word (c : N) : bool :=
  if N.ltb c 128 then is_ascii_alnum c || N.eqb c (chr "_")
  else unicode_isalnum rt c.

Definition is_decimal (c : N) : bool :=
  if N.ltb c 128 then is_ascii_digit c else unicode_isdecimal rt c.

(** [s.lower()], as far as ASCII goes: the ASCII capitals, and the two
    code points above ASCII whose lower-case form holds an ASCII letter
    (U+0130 and U+212A). Every other code point above ASCII lowers to code
    points above ASCII and is left as it is; the program only searches the
    result for an ASCII needle. *)
Definition lower (s : pystr) : pystr :=
  flat_map (fun c => if N.eqb c 304 then [105; 775]
                     else if N.eqb c 8490 then [107]
                     else [ascii_lower c])%N s.

(** Line 182: [<[^>]+>] *)
Definition tag_re : Re.regex :=
  Re.Cat (Re.Chr (Re.ch "<")) (Re.Cat (Re.plus (Re.not_ch ">")) (Re.Chr (Re.ch ">"))).

(** Line 183: [\s+] *)
Definition spaces_re : Re.regex := Re.plus isspace.

(** [_clean]; [x or ""] is [x], a [str]. *)
Definition _clean (x : pystr) : result pystr :=
  x <- Html.unescape (html5 rt) x ;;
  (* remove HTML tags and normalize whitespace *)
  let x := Re.sub tag_re (str " ") x in
  let x := strip (Re.sub spaces_re (str " ") x) in
  Ok x.

(** Line 188: [[\x00-\x08\x0B\x0C\x0E-\x1F]] *)
Definition control_re : Re.regex :=
  Re.Chr (fun c => in_range 0 8 c || N.eqb c 11 || N.eqb c 12 || in_range 14 31 c)%N.

(** Line 192, with [re.IGNORECASE]:
    [&(?!(lt|gt|amp|apos|quot);|#\d+;|#x[0-9A-Fa-f]+;)] *)
Definition bare_amp_re : Re.regex :=
  Re.Cat (Re.Chr (Re.ch "&"))
    (Re.NotAhead
       (Re.Alt
          (Re.Cat
             (Re.Alt (Re.litI "lt")
                (Re.Alt (Re.litI "gt")
                   (Re.Alt (Re.litI "amp")
                      (Re.Alt (Re.litI "apos") (Re.litI "quot")))))
             (Re.Chr (Re.ch ";")))
          (Re.Alt
             (Re.Cat (Re.Chr (Re.ch "#"))
                (Re.Cat (Re.plus is_decimal) (Re.Chr (Re.ch ";"))))
             (Re.Cat (Re.Chr (Re.ch "#"))
                (Re.Cat (Re.Chr (ci_eq (chr "x")))
                   (Re.Cat (Re.plus is_hex_digit) (Re.Chr (Re.ch ";")))))))).

(** [_sanitize_for_xml] *)
Definition _sanitize_for_xml (s : pystr) : pystr :=
  (* Remove control chars *)
  let s := Re.sub control_re [] s in
  (* Escape non-XML entities *)
  Re.sub bare_amp_re (str "&amp;") s.

(** [_try_parse]: [except Exception: return None] *)
Definition _try_parse (xml_text : pystr) : option Element :=
  match ET_fromstring rt xml_text with
  | Ok root => Some root
  | Raise _ => None
  end.

(** Line 213, with [re.DOTALL | re.IGNORECASE]: [(<steps\b.*?</steps>)] *)
Definition steps_re : Re.regex :=
  Re.Cat (Re.litI "<steps")
    (Re.Cat (Re.WordB is_word)
       (Re.Cat (Re.star_lazy Re.any) (Re.litI "</steps>"))).

(** [text_of] of line 226, for an element that is there. *)
Definition text_of (elem : Element) : pystr := join_empty (itertext elem).

(** The body of the loop of line 223 for one [step]: the record to append,
    if any. *)
Definition record_of_step (step : Element) : result (option StepRecord) :=
  let ps := findall_children (str "parameterizedString") step in
  let action_raw := match ps with p0 :: _ => text_of p0 | [] => [] end in
  let expected_raw := match ps with _ :: p1 :: _ => text_of p1 | _ => [] end in
  action <- _clean action_raw ;;
  expected <- _clean expected_raw ;;
  match action, expected with
  | [], [] => Ok None
  | _, _ => Ok (Some {| action := action; expected := expected |})
  end.

Fixpoint records_of_steps (steps : list Element) : result (list StepRecord) :=
  match steps with
  | [] => Ok []
  | step :: rest =>
      r <- record_of_step step ;;
      out <- records_of_steps rest ;;
      Ok (match r with Some rec => rec :: out | None => out end)
  end.

(** Lines 221-240: the records of a parsed tree. *)
Definition records_of_root (root : Element) : result (list StepRecord) :=
  records_of_steps (findall_descendants (str "step") root).

(** Whether strategy B runs (line 211). *)
Definition needs_strategy_B (root : option Element) (raw : pystr) : bool :=
  match root with None => true | Some _ => false end
  || contains (str "&lt;steps") (lower raw).

(** Lines 212-216: unescape, cut out the steps element, sanitize, parse. *)
Definition strategy_B (raw : pystr) : result (option Element) :=
  unescaped <- Html.unescape (html5 rt) raw ;;
  let xml_blob :=
    match Re.search steps_re unescaped with
    | Some (_, m, _) => m
    | None => unescaped
    end in
  let xml_blob := _sanitize_for_xml xml_blob in
  Ok (_try_parse xml_blob).

(** [parse_steps_from_tcm_field]; the argument is a [str] or [None]. *)
Definition parse_steps_from_tcm_field (steps_field_value : option pystr)
    : result (list StepRecord) :=
  match steps_field_value with
  | None | Some [] => Ok []
  | Some value =>
      let raw := strip value in
      (* Strategy A: parse as raw XML first *)
      let root := _try_parse raw in
      (* Strategy B: if escaped or failed, unescape + sanitize + parse *)
      root <- (if needs_strategy_B root raw then strategy_B raw else Ok root) ;;
      match root with
      | None => Ok []
      | Some root => records_of_root root
      end
  end.

(** Lines 256-272 of [compile_nl_tc_from_azure]: the structured steps and
    the lines of the conversion input. *)
Fixpoint collect_steps (steps : list StepRecord)
    : list StepRecord * list pystr :=
  match steps with
  | [] => ([], [])
  | s :: rest =>
      let a := strip (action s) in
      let e := strip (expected s) in
      let (structured, lines) := collect_steps rest in
      match a, e with
      | [], [] => (structured, lines)
      | _, _ =>
          ({| action := a; expected := e |} :: structured,
           match a with [] => lines | _ => a :: lines end)
      end
  end.

(** Line 272: [tc_nl = "".join([ln for ln in lines if ln]).strip()] *)
Definition join_lines (lines : list pystr) : pystr :=
  strip (join_empty (filter (fun ln => match ln with [] => false | _ => true end) lines)).

(** [compile_nl_tc_from_azure]: [wi] is the work item as [r.json()] gives
    it. A [fields] value that is not a dict, or a steps field that is
    neither empty nor a [str], makes the attribute access raise. *)
Definition compile_nl_tc_from_azure (tc_id : nat) (wi : dict)
    : result (pystr * dict * list StepRecord) :=
  fields <- match dict_get (str "fields") wi with
            | None => Ok []
            | Some (PDict d) => Ok d
            | Some v => if truthy v then Raise (OtherError "AttributeError")
                        else Ok []
            end ;;
  let title :=
    match dict_get (str "System.Title") fields with
    | Some v => v
    | None => PStr (str "Azure TC " ++ decimal tc_id)
    end in
  steps_field <- match dict_get config.AZURE_STEPS_FIELD fields with
                 | None => Ok []
                 | Some (PStr s) => Ok s
                 | Some v => if truthy v then Raise (OtherError "AttributeError")
                             else Ok []
                 end ;;
  steps <- parse_steps_from_tcm_field (Some steps_field) ;;
  let (azure_steps_structured, lines) := collect_steps steps in
  let tc_nl := join_lines lines in
  let tc_meta :=
    [ (str "azure_tc_id", PInt (Z.of_nat tc_id));
      (str "azure_title", title);
      (str "azure_url",
       match dict_get (str "url") wi with Some v => v | None => PNone end);
      (str "project", PStr config.AZURE_DEVOPS_project);
      (str "org", PStr config.AZURE_DEVOPS_org) ] in
  Ok (tc_nl, tc_meta, azure_steps_structured).

End StageFieldParser.

(* ================================================================= *)
(** ** A reference runtime

    To run the parser on concrete fields the runtime is instantiated:
    [html5] by the entries of the entity table that the examples meet, the
    Unicode predicates by the Latin-1 part of the database, and
    [ET.fromstring] by a parser for the fragment of XML that a steps field
    uses: one root element, elements with attributes, character data, the
    five predefined entities and numeric character references, with ASCII
    names. It rejects everything else, also the declarations, comments,
    processing instructions and CDATA sections that ElementTree accepts.
    The theorems below are stated for every runtime; the reference runtime
    only serves to run examples. *)

Module XmlFragment.
Local Open Scope N_scope.

Definition is_xml_char (c : N) : bool :=
  N.eqb c 9 || N.eqb c 10 || N.eqb c 13 || in_range 0x20 0xD7FF c
  || in_range 0xE000 0xFFFD c || in_range 0x10000 0x10FFFF c.

Definition is_space (c : N) : bool := mem c [32; 9; 10; 13].

Fixpoint skip_space (s : pystr) : pystr :=
  match s with
  | c :: s' => if is_space c then skip_space s' else s
  | [] => []
  end.

Definition name_start (c : N) : bool :=
  is_ascii_upper c || is_ascii_lower c || N.eqb c (chr "_").

Definition name_char (c : N) : bool :=
  name_start c || is_ascii_digit c || N.eqb c (chr ".") || N.eqb c (chr "-").

Definition take_name (s : pystr) : option (pystr * pystr) :=
  match s with
  | c :: _ => if name_start c then Some (span name_char s) else None
  | [] => None
  end.

Definition numeric_ref (base : N) (p : N -> bool) (s : pystr)
    : option (N * pystr) :=
  let (ds, r) := span p s in
  match ds, r with
  | _ :: _, semi :: r' =>
      let n := int_of_digits base ds in
      if N.eqb semi (chr ";") && is_xml_char n then Some (n, r') else None
  | _, _ => None
  end.

(** A reference, after its ampersand. *)
Definition take_ref (s : pystr) : option (N * pystr) :=
  if startswith (str "lt;") s then Some (chr "<", skipn 3 s)
  else if startswith (str "gt;") s then Some (chr ">", skipn 3 s)
  else if startswith (str "amp;") s then Some (chr "&", skipn 4 s)
  else if startswith (str "apos;") s then Some (39, skipn 5 s)
  else if startswith (str "quot;") s then Some (DQUOTE, skipn 5 s)
  else if startswith (str "#x") s then numeric_ref 16 is_hex_digit (skipn 2 s)
  else if startswith (str "#") s then numeric_ref 10 is_ascii_digit (skipn 1 s)
  else None.

(** An attribute value up to its closing quote, normalized. *)
Fixpoint take_value (fuel : nat) (quote : N) (s : pystr)
    : option (pystr * pystr) :=
  match fuel, s with
  | S fuel', c :: s' =>
      if N.eqb c quote then Some ([], s')
      else if N.eqb c (chr "<") then None
      else if N.eqb c (chr "&") then
        match take_ref s' with
        | Some (x, r) =>
            option_map (fun p => (x :: fst p, snd p)) (take_value fuel' quote r)
        | None => None
        end
      else if negb (is_xml_char c) then None
      else
        let s'' := if N.eqb c 13 && startswith [10] s' then tl s' else s' in
        option_map (fun p => ((if is_space c then 32 else c) :: fst p, snd p))
                   (take_value fuel' quote s'')
  | _, _ => None
  end.

(** The attributes of a start tag and how it ends: [true] for [/>]. *)
Fixpoint take_attrs (fuel : nat) (s : pystr) (acc : list (pystr * pystr))
    : option (list (pystr * pystr) * bool * pystr) :=
  match fuel with
  | O => None
  | S fuel' =>
      let s1 := skip_space s in
      if startswith (str ">") s1 then Some (acc, false, skipn 1 s1)
      else if startswith (str "/>") s1 then Some (acc, true, skipn 2 s1)
      else if Nat.eqb (length s1) (length s) then None
      else
        match take_name s1 with
        | None => None
        | Some (name, s2) =>
            match skip_space s2 with
            | eq :: s3 =>
                if negb (N.eqb eq (chr "=")) then None else
                match skip_space s3 with
                | q :: s4 =>
                    if negb (N.eqb q DQUOTE || N.eqb q 39) then None else
                    match take_value (length s4) q s4 with
                    | None => None
                    | Some (v, s5) =>
                        if existsb (fun kv => pystr_eqb (fst kv) name) acc
                        then None
                        else take_attrs fuel' s5 (acc ++ [(name, v)])
                    end
                | [] => None
                end
            | [] => None
            end
        end
  end.

(** An element under construction: its tag and attributes, the text seen
    before its first child, and its children so far, the last one first. *)
Record frame : Type := {
  f_tag : pystr;
  f_attrib : list (pystr * pystr);
  f_text : pystr;
  f_children : list Element
}.

Definition some_if_data (s : pystr) : option pystr :=
  match s with [] => None | _ => Some s end.

Definition close_frame (f : frame) : Element :=
  Elem (f_tag f) (f_attrib f) (some_if_data (f_text f)) (rev (f_children f)) None.

Definition add_child (e : Element) (f : frame) : frame :=
  {| f_tag := f_tag f; f_attrib := f_attrib f; f_text := f_text f;
     f_children := e :: f_children f |}.

(** Character data goes to the text of the open element, or to the tail of
    its last child. *)
Definition add_data (c : N) (f : frame) : frame :=
  match f_children f with
  | [] => {| f_tag := f_tag f; f_attrib := f_attrib f;
             f_text := f_text f ++ [c]; f_children := [] |}
  | Elem t a x ch tail :: rest =>
      {| f_tag := f_tag f; f_attrib := f_attrib f; f_text := f_text f;
         f_children :=
           Elem t a x ch (Some (match tail with Some d => d | None => [] end ++ [c]))
           :: rest |}
  end.

(** After the root element only white space may follow. *)
Definition finish (root : Element) (s : pystr) : result Element :=
  match skip_space s with
  | [] => Ok root
  | _ => Raise ParseError
  end.

(** The content of the open elements [stack] (innermost first). *)
Fixpoint content (fuel : nat) (s : pystr) (stack : list frame)
    : result Element :=
  match fuel, stack, s with
  | S fuel', top :: below, c :: s' =>
      if startswith (str "</") s then
        match take_name (skipn 2 s) with
        | Some (name, s1) =>
            if negb (pystr_eqb name (f_tag top)) then Raise ParseError else
            match skip_space s1 with
            | gt :: s2 =>
                if negb (N.eqb gt (chr ">")) then Raise ParseError else
                match below with
                | [] => finish (close_frame top) s2
                | parent :: below' =>
                    content fuel' s2 (add_child (close_frame top) parent :: below')
                end
            | [] => Raise ParseError
            end
        | None => Raise ParseError
        end
      else if N.eqb c (chr "<") then
        match take_name s' with
        | Some (name, s1) =>
            match take_attrs (S (length s1)) s1 [] with
            | Some (attrs, true, s2) =>
                content fuel' s2 (add_child (Elem name attrs None [] None) top :: below)
            | Some (attrs, false, s2) =>
                content fuel' s2
                  ({| f_tag := name; f_attrib := attrs; f_text := [];
                      f_children := [] |} :: stack)
            | None => Raise ParseError
            end
        | None => Raise ParseError
        end
      else if N.eqb c (chr "&") then
        match take_ref s' with
        | Some (x, s1) => content fuel' s1 (add_data x top :: below)
        | None => Raise ParseError
        end
      else if negb (is_xml_char c) || startswith (str "]]>") s then Raise ParseError
      else if N.eqb c 13 then
        content fuel' (if startswith [10] s' then tl s' else s')
                (add_data 10 top :: below)
      else content fuel' s' (add_data c top :: below)
  | _, _, _ => Raise ParseError
  end.

(** The document: white space, the root element, white space. *)
Definition fromstring (s : pystr) : result Element :=
  match skip_space s with
  | lt :: s0 =>
      if negb (N.eqb lt (chr "<")) then Raise ParseError else
      match take_name s0 with
      | Some (name, s1) =>
          match take_attrs (S (length s1)) s1 [] with
          | Some (attrs, true, s2) => finish (Elem name attrs None [] None) s2
          | Some (attrs, false, s2) =>
              content (length s2) s2
                [ {| f_tag := name; f_attrib := attrs; f_text := [];
                     f_children := [] |} ]
          | None => Raise ParseError
          end
      | None => Raise ParseError
      end
  | [] => Raise ParseError
  end.

End XmlFragment.

(** The entries of [html.entities.html5] that the examples use. *)
Definition reference_html5 (name : pystr) : option pystr :=
  let table :=
    [ (str "amp;", [38]); (str "amp", [38]); (str "lt;", [60]); (str "lt", [60]);
      (str "gt;", [62]); (str "gt", [62]); (str "quot;", [34]); (str "quot", [34]);
      (str "apos;", [39]); (str "nbsp;", [160]); (str "nbsp", [160]) ]%N in
  option_map snd (find (fun p => pystr_eqb (fst p) name) table).

(** [str.isalnum] on Latin-1; there is no decimal digit above ASCII in it. *)
Definition latin1_isalnum (c : N) : bool :=
  (mem c [170; 178; 179; 181; 185; 186; 188; 189; 190]
   || in_range 192 214 c || in_range 216 246 c || in_range 248 255 c)%N.

Definition reference_runtime : runtime :=
  {| html5 := reference_html5;
     unicode_isalnum := latin1_isalnum;
     unicode_isdecimal := fun _ => false;
     ET_fromstring := XmlFragment.fromstring |}.

(* ================================================================= *)
(** ** Specification vocabulary *)

(** The [references] mapping of a payload; a payload without one, or with a
    value that is not a dict, has no reference keys. *)
Definition references_of (payload : dict) : dict :=
  match dict_get (str "references") payload with
  | Some (PDict r) => r
  | _ => []
  end.

(** An ActionStep with some [id], a [keyword] that is not null and [params]
    that is a list. *)
Definition step_is_repaired (st : pyval) : bool :=
  match st with
  | PDict d =>
      match dict_get (str "id") d with Some v => truthy v | None => false end
      && match dict_get (str "keyword") d with
         | Some v => negb (is_none v)
         | None => false
         end
      && match dict_get (str "params") d with
         | Some (PList _) => true
         | _ => false
         end
  | _ => false
  end.

(** Of the entries of [automated_steps], those that are mappings. *)
Definition mapping_steps (steps : list pyval) : list pyval :=
  filter is_dict steps.

(** The invariant that the spec states of a StructuredOutput: every
    required top-level key, a non-empty [automated_steps], and every
    ActionStep repaired. *)
Definition structured_output_ok (payload : dict) : bool :=
  forallb (fun k => dict_has k payload) config.REQUIRED_TOP_LEVEL_KEYS
  && match dict_get (str "automated_steps") payload with
     | Some (PList (st :: rest)) => forallb step_is_repaired (st :: rest)
     | _ => false
     end.

(** The entries of a dict other than the one of key [k], in order. *)
Definition siblings (k : pystr) (d : dict) : dict :=
  filter (fun kv => negb (pystr_eqb k (fst kv))) d.

(** [s] cut at the first [c]: what is before it and what is after it. *)
Fixpoint split_first (c : N) (s : pystr) : option (pystr * pystr) :=
  match s with
  | [] => None
  | x :: s' =>
      if N.eqb x c then Some ([], s')
      else option_map (fun p => (x :: fst p, snd p)) (split_first c s')
  end.

(** [s] cut at the last [c]. *)
Fixpoint split_last (c : N) (s : pystr) : option (pystr * pystr) :=
  match s with
  | [] => None
  | x :: s' =>
      match split_last c s' with
      | Some (a, b) => Some (x :: a, b)
      | None => if N.eqb x c then Some ([], s') else None
      end
  end.

(** In the words of the spec: the substring that begins at the first [{]
    and ends at the last [}] of the text, with what is before and after it. *)
Definition first_to_last_brace (text : pystr) : option (pystr * pystr * pystr) :=
  match split_first (chr "{") text with
  | None => None
  | Some (before, rest) =>
      match split_last (chr "}") rest with
      | None => None
      | Some (inside, after) =>
          Some (before, chr "{" :: inside ++ [chr "}"], after)
      end
  end.

(** Whether a text starts with an ASCII word, compared as [re.IGNORECASE]
    does. *)
Fixpoint starts_ci (p s : pystr) : bool :=
  match p, s with
  | [], _ => true
  | a :: p', b :: s' => ci_eq a b && starts_ci p' s'
  | _ :: _, [] => false
  end.

(** [s] cut after the first closing tag [</steps>] (in any case). *)
Fixpoint upto_first_close (s : pystr) : option (pystr * pystr) :=
  if starts_ci (str "</steps>") s then Some (firstn 8 s, skipn 8 s)
  else
    match s with
    | [] => None
    | x :: s' => option_map (fun p => (x :: fst p, snd p)) (upto_first_close s')
    end.

(** An opening [<steps] (in any case) that ends at a word boundary: of its
    last character and the character after it, one is a word character and
    the other is not. *)
Definition opens_steps (w : N -> bool) (s : pystr) : bool :=
  starts_ci (str "<steps") s
  && xorb (Re.is_word_at w (nth_error s 5))
          (Re.is_word_at w (hd_error (skipn 6 s))).

(** The region from the first opening [<steps] that has a closing tag after
    it to the first [</steps>] that follows. *)
Fixpoint first_open_to_first_close (w : N -> bool) (before s : pystr)
    : option (pystr * pystr * pystr) :=
  match
    (if opens_steps w s then upto_first_close (skipn 6 s) else None)
  with
  | Some (m, after) => Some (rev before, firstn 6 s ++ m, after)
  | None =>
      match s with
      | [] => None
      | x :: s' => first_open_to_first_close w (x :: before) s'
      end
  end.

(** [r] is what is left of [s] after some prefix. *)
Definition suffix (r s : pystr) : Prop := exists pre, s = pre ++ r.

(** [bool(s)] for a [str]. *)
Definition nonempty (s : pystr) : bool :=
  match s with [] => false | _ => true end.

(** The character before the position after [m], for a scan that stood
    after [prev]. *)
Definition prev_after (prev : option N) (m : pystr) : option N :=
  fold_left (fun _ c => Some c) m prev.

(** Where a tag that starts at the head of [s] ends: [s] is an opening
    angle bracket, a character that is not a closing one, and has a closing
    angle bracket further on; the result is the text after it. *)
Definition tag_end (s : pystr) : option pystr :=
  match s with
  | x :: y :: s' =>
      if N.eqb x (chr "<") && negb (N.eqb y (chr ">"))
      then option_map snd (split_first (chr ">") s')
      else None
  | _ => None
  end.

(** No tag starts anywhere in [s]. *)
Fixpoint tagfree (s : pystr) : bool :=
  match s with
  | [] => true
  | _ :: s' => match tag_end s with Some _ => false | None => tagfree s' end
  end.

Definition starts_space (s : pystr) : bool :=
  match s with c :: _ => isspace c | [] => false end.

(** White space is normalized: every white-space character is a space and
    no two of them are adjacent. *)
Fixpoint wsnorm (s : pystr) : bool :=
  match s with
  | [] => true
  | x :: s' =>
      (if isspace x then N.eqb x 32 && negb (starts_space s') else true)
      && wsnorm s'
  end.

(** A step that [validate_payload] accepts: a mapping with every required
    step key and a list under [params]. *)
Definition step_well_shaped (st : pyval) : bool :=
  match st with
  | PDict d =>
      forallb (fun k => dict_has k d) config.REQUIRED_STEP_KEYS
      && match dict_get (str "params") d with
         | Some (PList _) => true
         | _ => false
         end
  | _ => false
  end.

(** A payload that [validate_payload] accepts. *)
Definition payload_well_shaped (payload : dict) : bool :=
  forallb (fun k => dict_has k payload) config.REQUIRED_TOP_LEVEL_KEYS
  && match dict_get (str "automated_steps") payload with
     | Some (PList (st :: rest)) => forallb step_well_shaped (st :: rest)
     | _ => false
     end.


(** A payload with a note, an entry of [automated_steps] that is no
    mapping and a step without id and params. *)
Definition noisy_payload : dict :=
  [ (str "note", PStr (str "kept"));
    (str "automated_steps",
     PList [PStr (str "noise"); PDict [(str "keyword", PStr (str "tap"))]]) ].

(** A payload with every required top-level key and steps to repair. *)
Definition complete_payload : dict :=
  [ (str "name", PStr (str "Login"));
    (str "description", PStr []);
    (str "preconditions", PList []);
    (str "tags", PList []);
    (str "automated_steps",
     PList [PDict [(str "keyword", PStr (str "tap"))];
            PDict [(str "id", PStr (str "x")); (str "keyword", PNone);
                   (str "params", PStr (str "k"))]]);
    (str "artifacts", PDict []);
    (str "references", PDict [(str "source", PStr (str "tc"))]);
    (str "diagnostics", PDict []) ].

(** A response of the model: one JSON object in prose, with every required
    top-level key, steps to repair and a schema-meta field. *)
Definition model_output_text : pystr :=
  qstr "Here you go: {'name': 'Login', 'description': '', 'preconditions': [], 'tags': [], 'automated_steps': [{'keyword': 'tap'}, {'id': 'x', 'keyword': null, 'params': 'k'}], 'artifacts': {}, 'references': {'source': 'tc'}, 'diagnostics': {}, 'required_keys': ['id']} Done.".

(** The JSON text of an object with one member, an integer of [digits]
    digits. *)
Definition long_integer_object (digits : nat) : pystr :=
  qstr "{'n': " ++ repeat (chr "1") digits ++ str "}".

(** The exceptions of [json.loads]: [JSONDecodeError], the [ValueError] of
    [int] and [RecursionError]. *)
Definition decoder_error (e : exn) : bool :=
  match e with
  | JSONDecodeError _ | IntStrDigitsLimit | RecursionError => true
  | _ => false
  end.

(** Cleaning twice. *)
Definition clean_twice (rt : runtime) (x : pystr) : result pystr :=
  (r <- _clean rt x ;; _clean rt r)%result.

(** The two-step field of the examples. *)
Definition two_step_field : pystr :=
  str "<steps><step><parameterizedString>Open App</parameterizedString><parameterizedString></parameterizedString></step><step><parameterizedString>Tap Login</parameterizedString><parameterizedString></parameterizedString></step></steps>".

Definition two_step_work_item : dict :=
  [ (str "id", PInt 7);
    (str "fields", PDict [ (str "System.Title", PStr (str "Login"));
                           (config.AZURE_STEPS_FIELD, PStr two_step_field) ]) ].

(** A well-formed field whose text mentions an escaped steps tag. *)
Definition escaped_mention_field : pystr :=
  str "<steps><step><parameterizedString>click &lt;steps&gt; button</parameterizedString></step></steps>".

(** A field with a decimal character reference of 4301 digits. *)
Definition overlong_reference_field : pystr :=
  str "&#" ++ repeat (chr "1") 4301 ++ str ";&lt;steps".

(* ================================================================= *)
(** * Proofs *)

(** ** Strings and dictionaries *)

Lemma pystr_eqb_eq (a b : pystr) : pystr_eqb a b = true <-> a = b.
Proof.
  unfold pystr_eqb. destruct (list_eq_dec N.eq_dec a b); split; congruence.
Qed.

Lemma pystr_eqb_refl (a : pystr) : pystr_eqb a a = true.
Proof. now apply pystr_eqb_eq. Qed.

Lemma pystr_eqb_neq (a b : pystr) : a <> b -> pystr_eqb a b = false.
Proof.
  intros H. destruct (pystr_eqb a b) eqn:E; [|reflexivity].
  apply pystr_eqb_eq in E. contradiction.
Qed.

Lemma dict_get_set_same (k : pystr) (v : pyval) (d : dict) :
  dict_get k (dict_set k v d) = Some v.
Proof.
  induction d as [|[k' v'] d IH]; simpl.
  - now rewrite pystr_eqb_refl.
  - destruct (pystr_eqb k k') eqn:E; simpl; rewrite E; auto.
Qed.

Lemma dict_get_set_other (k k' : pystr) (v : pyval) (d : dict) :
  k <> k' -> dict_get k (dict_set k' v d) = dict_get k d.
Proof.
  intros Hne. induction d as [|[k2 v2] d IH]; simpl.
  - now rewrite pystr_eqb_neq.
  - destruct (pystr_eqb k' k2) eqn:E; simpl.
    + apply pystr_eqb_eq in E. subst k2. now rewrite pystr_eqb_neq.
    + destruct (pystr_eqb k k2); auto.
Qed.

Lemma dict_set_set (k : pystr) (v v' : pyval) (d : dict) :
  dict_set k v (dict_set k v' d) = dict_set k v d.
Proof.
  induction d as [|[k2 v2] d IH]; simpl.
  - now rewrite pystr_eqb_refl.
  - destruct (pystr_eqb k k2) eqn:E; simpl; rewrite E; congruence.
Qed.

Lemma dict_set_get (k : pystr) (v : pyval) (d : dict) :
  dict_get k d = Some v -> dict_set k v d = d.
Proof.
  induction d as [|[k2 v2] d IH]; simpl; [discriminate|].
  destruct (pystr_eqb k k2) eqn:E; intros H.
  - now inversion H.
  - now rewrite IH.
Qed.

Lemma dict_get_pop_other (k k' : pystr) (d : dict) :
  k <> k' -> dict_get k (dict_pop k' d) = dict_get k d.
Proof.
  intros Hne. induction d as [|[k2 v2] d IH]; simpl; [reflexivity|].
  destruct (pystr_eqb k' k2) eqn:E; simpl.
  - apply pystr_eqb_eq in E. subst k2. now rewrite pystr_eqb_neq.
  - destruct (pystr_eqb k k2); auto.
Qed.

Lemma dict_has_set_other (k k' : pystr) (v : pyval) (d : dict) :
  k <> k' -> dict_has k (dict_set k' v d) = dict_has k d.
Proof. intros H. unfold dict_has. now rewrite dict_get_set_other. Qed.

(** Distinct literal keys are told apart by evaluation. *)
Ltac keys_differ := let H := fresh in intros H; vm_compute in H; discriminate H.

Ltac dict_simpl :=
  repeat first
    [ rewrite dict_get_set_same
    | rewrite dict_get_set_other by keys_differ
    | rewrite dict_get_pop_other by keys_differ ].

(** ** The repair ([ensure_step_defaults]) *)

(** A step that went through the loop body is repaired. *)
Lemma repair_step_ok (i : nat) (st : dict) :
  step_is_repaired (PDict (repair_step i st)) = true.
Proof.
  unfold repair_step, step_is_repaired.
  set (st1 := match dict_get (str "id") st with
              | Some v => if truthy v then st else _
              | None => _ end).
  assert (H1 : exists v, dict_get (str "id") st1 = Some v /\ truthy v = true).
  { subst st1. destruct (dict_get (str "id") st) as [v|] eqn:E.
    - destruct (truthy v) eqn:T; [eauto|].
      eexists; split; [apply dict_get_set_same|reflexivity].
    - eexists; split; [apply dict_get_set_same|reflexivity]. }
  destruct H1 as (vid & Hid & Tid).
  set (st2 := match dict_get (str "keyword") st1 with
              | Some PNone | None => _ | Some _ => st1 end).
  assert (H2 : dict_get (str "id") st2 = Some vid).
  { subst st2. destruct (dict_get (str "keyword") st1) as [[]|]; dict_simpl; auto. }
  assert (H3 : exists v, dict_get (str "keyword") st2 = Some v /\ is_none v = false).
  { subst st2. destruct (dict_get (str "keyword") st1) as [v|] eqn:E.
    - destruct v; try (exists (PStr []); split; [apply dict_get_set_same|reflexivity]);
        eauto.
    - exists (PStr []); split; [apply dict_get_set_same|reflexivity]. }
  destruct H3 as (vk & Hk & Nk).
  destruct (dict_get (str "params") st2) as [v|] eqn:E.
  - destruct v; dict_simpl; rewrite ?H2, ?Hk, ?E, ?Tid, ?Nk; reflexivity.
  - dict_simpl. rewrite H2, Hk, Tid, Nk. reflexivity.
Qed.

(** The loop body leaves a repaired step as it is. *)
Lemma repair_step_fixed (i : nat) (st : dict) :
  step_is_repaired (PDict st) = true -> repair_step i st = st.
Proof.
  unfold step_is_repaired, repair_step. intros H.
  apply andb_prop in H. destruct H as [H Hp].
  apply andb_prop in H. destruct H as [Hi Hk].
  destruct (dict_get (str "id") st) as [vi|]; [|discriminate]. rewrite Hi.
  destruct (dict_get (str "keyword") st) as [vk|]; [|discriminate].
  destruct vk; try discriminate;
    destruct (dict_get (str "params") st) as [[]|]; try discriminate; reflexivity.
Qed.

Lemma repair_steps_idempotent (steps : list pyval) :
  forall i, repair_steps i (repair_steps i steps) = repair_steps i steps.
Proof.
  induction steps as [|st rest IH]; intros i; [reflexivity|].
  destruct st; simpl; rewrite IH; try reflexivity.
  now rewrite (repair_step_fixed i _ (repair_step_ok i d)).
Qed.

(** C6: applying the repair twice is the same as applying it once; the ids
    that were synthesized and the defaults that were filled in are kept by the
    second pass. *)
Theorem ensure_step_defaults_idempotent (payload : dict) :
  ensure_step_defaults (ensure_step_defaults payload)
  = ensure_step_defaults payload.
Proof.
  unfold ensure_step_defaults.
  destruct (dict_get (str "automated_steps") payload) as [v|] eqn:E.
  - destruct v; rewrite ?E; try reflexivity.
    rewrite dict_get_set_same, repair_steps_idempotent. apply dict_set_set.
  - now rewrite E.
Qed.

(** The example of the spec: [{"keyword":"tap"}] is repaired to a step with
    id S001 and empty params, and a second repair changes nothing. *)
Example repair_example :
  let payload := [(str "automated_steps",
                   PList [PDict [(str "keyword", PStr (str "tap"))]])] in
  let repaired := [(str "automated_steps",
                    PList [PDict [(str "keyword", PStr (str "tap"));
                                  (str "id", PStr (str "S001"));
                                  (str "params", PList [])]])] in
  ensure_step_defaults payload = repaired
  /\ ensure_step_defaults repaired = repaired.
Proof. split; reflexivity. Qed.

(** The third scenario of the spec: a scalar [params] is wrapped. *)
Example repair_wraps_scalar_params :
  ensure_step_defaults
    [(str "automated_steps",
      PList [PDict [(str "keyword", PStr (str "tap"));
                    (str "params", PStr (str "btn"))]])]
  = [(str "automated_steps",
      PList [PDict [(str "keyword", PStr (str "tap"));
                    (str "params", PList [PStr (str "btn")]);
                    (str "id", PStr (str "S001"))]])].
Proof. reflexivity. Qed.

Lemma repair_steps_mappings (steps : list pyval) :
  forall i st, In st (repair_steps i steps) -> is_dict st = true ->
               step_is_repaired st = true.
Proof.
  induction steps as [|s rest IH]; intros i st Hin Hd; [contradiction|].
  destruct s; simpl in Hin; destruct Hin as [<-|Hin]; try discriminate;
    try (eapply IH; eassumption).
  apply repair_step_ok.
Qed.

Lemma repair_steps_length (steps : list pyval) :
  forall i, length (repair_steps i steps) = length steps.
Proof.
  induction steps as [|s rest IH]; intros i; [reflexivity|].
  destruct s; simpl; now rewrite IH.
Qed.

Lemma validate_steps_mappings (steps : list pyval) :
  forall i, validate_steps i steps = Ok tt -> forallb is_dict steps = true.
Proof.
  induction steps as [|s rest IH]; intros i H; [reflexivity|].
  simpl in H. destruct (validate_step i s) eqn:E; [|discriminate].
  simpl in H. apply IH in H. simpl. rewrite H.
  destruct s; try discriminate. reflexivity.
Qed.

(** What [validate_payload] accepts. *)
Lemma validate_payload_ok (payload : dict) :
  validate_payload payload = Ok tt ->
  forallb (fun k => dict_has k payload) config.REQUIRED_TOP_LEVEL_KEYS = true
  /\ exists st rest,
       dict_get (str "automated_steps") payload = Some (PList (st :: rest))
       /\ forallb is_dict (st :: rest) = true.
Proof.
  unfold validate_payload. intros H.
  destruct (filter _ config.REQUIRED_TOP_LEVEL_KEYS) eqn:F; [|discriminate].
  split.
  - apply forallb_forall. intros k Hk.
    destruct (dict_has k payload) eqn:E; [reflexivity|].
    assert (Hin : In k (filter (fun k => negb (dict_has k payload))
                               config.REQUIRED_TOP_LEVEL_KEYS)).
    { apply filter_In. split; [assumption|now rewrite E]. }
    rewrite F in Hin. contradiction.
  - destruct (dict_get (str "automated_steps") payload) as [[]|]; try discriminate.
    destruct l as [|st rest]; [discriminate|].
    exists st, rest. split; [reflexivity|].
    eapply validate_steps_mappings; eassumption.
Qed.

(** The steps of a repaired payload are the repaired steps of the payload,
    when there is a list of steps at all. *)
Lemma ensure_step_defaults_steps (payload : dict) (l : list pyval) :
  dict_get (str "automated_steps") (ensure_step_defaults payload) = Some (PList l) ->
  exists steps, dict_get (str "automated_steps") payload = Some (PList steps)
                /\ l = repair_steps 1 steps.
Proof.
  unfold ensure_step_defaults.
  destruct (dict_get (str "automated_steps") payload) as [v|] eqn:E.
  - destruct v; rewrite ?E; try discriminate.
    rewrite dict_get_set_same. intros H. inversion H. eauto.
  - rewrite E. discriminate.
Qed.

Lemma repaired_and_valid (payload : dict) (l : list pyval) :
  dict_get (str "automated_steps") (ensure_step_defaults payload) = Some (PList l) ->
  forallb is_dict l = true ->
  forallb step_is_repaired l = true.
Proof.
  intros Hl Hd. apply ensure_step_defaults_steps in Hl.
  destruct Hl as (steps & _ & ->).
  apply forallb_forall. intros st Hin.
  eapply repair_steps_mappings; [eassumption|].
  rewrite forallb_forall in Hd. auto.
Qed.

(** The payload that [run_conversion] returns went through the repair and
    passed the validation. *)
Lemma run_conversion_inv (limit : nat) (output_text : pystr)
    (azure_steps : list StepRecord) (payload : dict) :
  run_conversion limit output_text azure_steps = Ok payload ->
  exists extracted,
    extract_json_object limit (Some output_text) = Ok extracted
    /\ payload = strip_meta_fields
                   (merge_references (ensure_step_defaults extracted) azure_steps)
    /\ validate_payload payload = Ok tt.
Proof.
  unfold run_conversion. intros H.
  destruct (extract_json_object limit (Some output_text)) as [p0|] eqn:E;
    [|discriminate].
  simpl in H.
  destruct (validate_payload _) as [[]|] eqn:V; [|discriminate].
  simpl in H. inversion H. subst. eauto.
Qed.

Lemma pipeline_keeps_steps (p : dict) (azure_steps : list StepRecord) :
  dict_get (str "automated_steps") (strip_meta_fields (merge_references p azure_steps))
  = dict_get (str "automated_steps") p.
Proof. unfold strip_meta_fields, merge_references. now dict_simpl. Qed.

Lemma repair_steps_nth (steps : list pyval) :
  forall k j,
    nth_error (repair_steps k steps) j
    = option_map (fun v => match v with
                           | PDict st => PDict (repair_step (k + j) st)
                           | _ => v
                           end)
                 (nth_error steps j).
Proof.
  induction steps as [|s rest IH]; intros k j.
  - now destruct j.
  - destruct j as [|j].
    + rewrite Nat.add_0_r. now destruct s.
    + replace (k + S j) with (S k + j) by lia.
      destruct s; cbn [repair_steps nth_error]; apply IH.
Qed.

Lemma dict_set_keys (k : pystr) (v : pyval) (d : dict) :
  dict_has k d = true -> map fst (dict_set k v d) = map fst d.
Proof.
  unfold dict_has. induction d as [|[k' v'] d IH]; cbn [dict_get dict_set];
    [discriminate|].
  destruct (pystr_eqb k k'); [reflexivity|].
  intros H. cbn [map fst]. now rewrite IH.
Qed.

(** C3, counterexample: the repair alone does not give the invariant; the
    empty object stays empty, without any required key or step. *)
Lemma repair_does_not_establish_invariant :
  ensure_step_defaults [] = []
  /\ structured_output_ok (ensure_step_defaults []) = false.
Proof. split; reflexivity. Qed.

(** C3, as amended. The repair adds no top-level key: the payload keeps its
    keys, in their order, and the value of every key but [automated_steps],
    and it is returned as it is when [automated_steps] is missing or is not
    a list. A list under [automated_steps] keeps its length, so an empty one
    stays empty; its entries that are not mappings stay as they are, and
    every entry that is a mapping has, after the repair, some id, a keyword
    that is not null and params that is a list. And an object that passes
    the validation after the repair, so every object [run_conversion]
    returns, has every required top-level key, a non-empty
    [automated_steps] and only repaired steps in it. *)
Theorem repair_and_validation_invariant :
  (forall payload,
      map fst (ensure_step_defaults payload) = map fst payload
      /\ (forall k, k <> str "automated_steps" ->
                    dict_get k (ensure_step_defaults payload)
                    = dict_get k payload)
      /\ ((forall steps, dict_get (str "automated_steps") payload
                         <> Some (PList steps)) ->
          ensure_step_defaults payload = payload))
  /\ (forall payload steps,
         dict_get (str "automated_steps") payload = Some (PList steps) ->
         exists steps',
           dict_get (str "automated_steps") (ensure_step_defaults payload)
           = Some (PList steps')
           /\ length steps' = length steps
           /\ (forall j v,
                  nth_error steps j = Some v -> is_dict v = false ->
                  nth_error steps' j = Some v)
           /\ (forall j v,
                  nth_error steps j = Some v -> is_dict v = true ->
                  exists v',
                    nth_error steps' j = Some v'
                    /\ step_is_repaired v' = true)
           /\ forallb step_is_repaired (mapping_steps steps') = true)
  /\ (forall payload,
         validate_payload (ensure_step_defaults payload) = Ok tt ->
         structured_output_ok (ensure_step_defaults payload) = true)
  /\ (forall limit output_text azure_steps payload,
         run_conversion limit output_text azure_steps = Ok payload ->
         structured_output_ok payload = true).
Proof.
  split; [|split; [|split]].
  - intros payload. unfold ensure_step_defaults. split; [|split].
    + destruct (dict_get (str "automated_steps") payload) as [[]|] eqn:E;
        try reflexivity.
      apply dict_set_keys. unfold dict_has. now rewrite E.
    + intros k Hk.
      destruct (dict_get (str "automated_steps") payload) as [[]|];
        try reflexivity.
      now apply dict_get_set_other.
    + intros H.
      destruct (dict_get (str "automated_steps") payload) as [[]|] eqn:E;
        try reflexivity.
      exfalso. now apply (H l).
  - intros payload steps H. exists (repair_steps 1 steps).
    unfold ensure_step_defaults. rewrite H, dict_get_set_same.
    split; [reflexivity|]. split; [apply repair_steps_length|].
    split; [|split].
    + intros j v Hn Hd. rewrite repair_steps_nth, Hn. cbn [option_map].
      destruct v; try reflexivity. discriminate Hd.
    + intros j v Hn Hd. rewrite repair_steps_nth, Hn. cbn [option_map].
      destruct v; try discriminate Hd.
      eexists. split; [reflexivity|]. apply repair_step_ok.
    + apply forallb_forall. intros st Hin.
      apply filter_In in Hin. destruct Hin as [Hin Hd].
      eapply repair_steps_mappings; eassumption.
  - intros payload V. apply validate_payload_ok in V.
    destruct V as (K & st & rest & S & D).
    unfold structured_output_ok. rewrite K, S. cbn [andb].
    eapply repaired_and_valid; eassumption.
  - intros limit output_text azure_steps payload H.
    apply run_conversion_inv in H. destruct H as (p0 & _ & -> & V).
    apply validate_payload_ok in V.
    destruct V as (K & st & rest & S & D).
    unfold structured_output_ok. rewrite K, S. cbn [andb].
    rewrite pipeline_keeps_steps in S.
    eapply repaired_and_valid; eassumption.
Qed.

Lemma repair_and_validation_invariant_witness :
  (exists steps',
      dict_get (str "automated_steps") (ensure_step_defaults noisy_payload)
      = Some (PList steps')
      /\ length steps' = 2
      /\ nth_error steps' 0 = Some (PStr (str "noise"))
      /\ exists v', nth_error steps' 1 = Some v'
                    /\ step_is_repaired v' = true)
  /\ dict_get (str "note") (ensure_step_defaults noisy_payload)
     = Some (PStr (str "kept"))
  /\ structured_output_ok (ensure_step_defaults complete_payload) = true
  /\ exists payload,
       run_conversion 1000 model_output_text [] = Ok payload
       /\ structured_output_ok payload = true.
Proof.
  split; [|split; [|split]].
  - destruct (proj1 (proj2 repair_and_validation_invariant) noisy_payload
                [PStr (str "noise"); PDict [(str "keyword", PStr (str "tap"))]]
                eq_refl)
      as (steps' & A & B & C & D & _).
    exists steps'. split; [exact A|]. split; [exact B|]. split.
    + apply (C 0 (PStr (str "noise"))); reflexivity.
    + apply (D 1 (PDict [(str "keyword", PStr (str "tap"))])); reflexivity.
  - rewrite (proj1 (proj2 (proj1 repair_and_validation_invariant
                                 noisy_payload)) (str "note"));
      [reflexivity|].
    intros H. vm_compute in H. discriminate H.
  - apply (proj1 (proj2 (proj2 repair_and_validation_invariant))
             complete_payload).
    reflexivity.
  - eexists. split; [vm_compute; reflexivity|].
    apply (proj2 (proj2 (proj2 repair_and_validation_invariant))
             1000 model_output_text []).
    vm_compute. reflexivity.
Defined.

(** ** The merge of [references.steps] *)

Lemma references_of_merge (payload : dict) (azure_steps : list StepRecord) :
  references_of (merge_references payload azure_steps)
  = dict_set (str "steps") (PList (map step_to_py azure_steps))
             (references_of payload).
Proof.
  unfold references_of, merge_references. now rewrite dict_get_set_same.
Qed.

Lemma references_of_repair (payload : dict) :
  references_of (ensure_step_defaults payload) = references_of payload.
Proof.
  unfold references_of, ensure_step_defaults.
  destruct (dict_get (str "automated_steps") payload) as [[]|]; try reflexivity.
  now dict_simpl.
Qed.

Lemma references_of_strip (payload : dict) :
  references_of (strip_meta_fields payload) = references_of payload.
Proof. unfold references_of, strip_meta_fields. now dict_simpl. Qed.

Lemma siblings_set (k : pystr) (v : pyval) (d : dict) :
  siblings k (dict_set k v d) = siblings k d.
Proof.
  induction d as [|[k' v'] d IH]; simpl.
  - now rewrite pystr_eqb_refl.
  - destruct (pystr_eqb k k') eqn:E; simpl; rewrite E; simpl; congruence.
Qed.

(** C4: the merge sets [references["steps"]] to the supplied sequence and
    changes nothing else of [references]: every other key keeps its value,
    and the other entries stay as they were, in their order. *)
Theorem merge_references_frame (payload : dict) (azure_steps : list StepRecord) :
  let refs := references_of payload in
  let refs' := references_of (merge_references payload azure_steps) in
  dict_get (str "steps") refs' = Some (PList (map step_to_py azure_steps))
  /\ siblings (str "steps") refs' = siblings (str "steps") refs
  /\ forall k, k <> str "steps" -> dict_get k refs' = dict_get k refs.
Proof.
  cbv zeta. rewrite references_of_merge. split; [|split].
  - apply dict_get_set_same.
  - apply siblings_set.
  - intros k Hk. now apply dict_get_set_other.
Qed.

Lemma merge_references_frame_witness :
  dict_get (str "source")
    (references_of
       (merge_references
          [(str "references",
            PDict [(str "source", PStr (str "kb")); (str "steps", PNone)])]
          [{| action := str "Open App"; expected := [] |}]))
  = Some (PStr (str "kb")).
Proof.
  refine (eq_trans
    (proj2 (proj2 (merge_references_frame
              [(str "references",
                PDict [(str "source", PStr (str "kb")); (str "steps", PNone)])]
              [{| action := str "Open App"; expected := [] |}]))
           (str "source") _) _).
  - intros H. vm_compute in H. discriminate H.
  - reflexivity.
Defined.

(** The same holds of the whole of [run_conversion]: the reference keys of
    the returned payload, [steps] apart, are those of the extracted object. *)
Lemma run_conversion_keeps_references (limit : nat) (output_text : pystr)
    (azure_steps : list StepRecord) (payload extracted : dict) (k : pystr) :
  run_conversion limit output_text azure_steps = Ok payload ->
  extract_json_object limit (Some output_text) = Ok extracted ->
  k <> str "steps" ->
  dict_get k (references_of payload) = dict_get k (references_of extracted).
Proof.
  intros H E Hk. apply run_conversion_inv in H.
  destruct H as (p0 & E' & -> & _).
  rewrite E in E'. inversion E'. subst p0.
  rewrite references_of_strip, references_of_merge, dict_get_set_other by assumption.
  now rewrite references_of_repair.
Qed.

(** ** The matcher on the patterns of the program *)

Arguments chr : simpl never.
Arguments str : simpl never.

Lemma split_first_app (c : N) (s a b : pystr) :
  split_first c s = Some (a, b) -> s = a ++ c :: b /\ ~ In c a.
Proof.
  revert a b. induction s as [|x s IH]; intros a b; simpl; [discriminate|].
  destruct (N.eqb_spec x c) as [->|Hne].
  - intros H. inversion H. subst. split; [reflexivity|intros []].
  - destruct (split_first c s) as [[a' b']|]; [|discriminate].
    simpl. intros H. inversion H. subst.
    destruct (IH a' b eq_refl) as [-> Hn].
    split; [reflexivity|]. intros [E|Hin]; [now apply Hne|now apply Hn].
Qed.

Lemma split_first_none (c : N) (s : pystr) :
  split_first c s = None <-> ~ In c s.
Proof.
  induction s as [|x s IH]; simpl; [tauto|].
  destruct (N.eqb_spec x c) as [->|Hne].
  - split; [discriminate|]. intros H. exfalso. apply H. now left.
  - destruct (split_first c s) as [[a b]|]; simpl.
    + split; [discriminate|]. intros H. exfalso.
      assert (Hs : ~ In c s) by tauto. apply IH in Hs. discriminate.
    + split; [|reflexivity]. intros _ [E|Hin]; [now apply Hne|].
      now apply (proj1 IH eq_refl).
Qed.

Lemma split_last_app (c : N) (s a b : pystr) :
  split_last c s = Some (a, b) -> s = a ++ c :: b /\ ~ In c b.
Proof.
  revert a b. induction s as [|x s IH]; intros a b; simpl; [discriminate|].
  destruct (split_last c s) as [[a' b']|] eqn:E.
  - intros H. inversion H. subst.
    destruct (IH a' b eq_refl) as [-> Hn]. now split.
  - destruct (N.eqb_spec x c) as [->|Hne]; [|discriminate].
    intros H. inversion H. subst. split; [reflexivity|].
    clear IH H. revert E. induction b as [|y b IHb]; simpl; [tauto|].
    destruct (split_last c b) as [[]|]; [discriminate|].
    destruct (N.eqb_spec y c); [discriminate|].
    intros _ [E|Hin]; [congruence|]. now apply IHb.
Qed.

Lemma split_last_none (c : N) (s : pystr) :
  split_last c s = None <-> ~ In c s.
Proof.
  induction s as [|x s IH]; simpl; [tauto|].
  destruct (split_last c s) as [[a b]|].
  - split; [discriminate|]. intros H. exfalso.
    assert (Hs : ~ In c s) by tauto. apply IH in Hs. discriminate.
  - destruct (N.eqb_spec x c) as [->|Hne].
    + split; [discriminate|]. intros H. exfalso. apply H. now left.
    + split; [|reflexivity]. intros _ [E|Hin]; [now apply Hne|].
      now apply (proj1 IH eq_refl).
Qed.

Lemma consumed_app (m rest : pystr) : Re.consumed (m ++ rest) rest = m.
Proof.
  unfold Re.consumed. rewrite length_app.
  replace (length m + length rest - length rest) with (length m) by lia.
  rewrite firstn_app, firstn_all, Nat.sub_diag. simpl. apply app_nil_r.
Qed.

Lemma consumed_split (x c : N) (inside after : pystr) :
  Re.consumed (x :: inside ++ c :: after) after = x :: inside ++ [c].
Proof.
  replace (x :: inside ++ c :: after) with ((x :: inside ++ [c]) ++ after)
    by (simpl; now rewrite <- app_assoc).
  apply consumed_app.
Qed.

(** The greedy [.*] followed by [}]: the text after the last [}]. *)
Lemma greedy_any_then_brace (s : pystr) :
  forall prev,
    Re.rep Re.any true 0 None prev s
      (fun p s' => Re.exec (Re.Chr (Re.ch "}")) p s' Re.accept)
    = option_map snd (split_last (chr "}") s).
Proof.
  induction s as [|x s IH]; intros prev; [reflexivity|].
  simpl. rewrite IH.
  destruct (split_last (chr "}") s) as [[a b]|]; [reflexivity|].
  simpl. unfold Re.ch. rewrite N.eqb_sym.
  destruct (N.eqb x (chr "}")); reflexivity.
Qed.

Lemma json_object_re_match (prev : option N) (s : pystr) :
  Re.match_at json_object_re prev s
  = match s with
    | x :: s' =>
        if N.eqb x (chr "{") then option_map snd (split_last (chr "}") s')
        else None
    | [] => None
    end.
Proof.
  destruct s as [|x s]; [reflexivity|].
  unfold Re.match_at, json_object_re. simpl Re.exec.
  unfold Re.ch at 1. rewrite N.eqb_sym.
  destruct (N.eqb x (chr "{")); [|reflexivity].
  apply greedy_any_then_brace.
Qed.

Lemma first_to_last_brace_cons (x : N) (s : pystr) :
  x <> chr "{" ->
  first_to_last_brace (x :: s)
  = option_map (fun r => (x :: fst (fst r), snd (fst r), snd r))
               (first_to_last_brace s).
Proof.
  intros Hne. unfold first_to_last_brace. simpl.
  destruct (N.eqb_spec x (chr "{")); [contradiction|].
  destruct (split_first (chr "{") s) as [[b rest]|]; [|reflexivity].
  simpl. destruct (split_last (chr "}") rest) as [[i a]|]; reflexivity.
Qed.

Lemma no_brace_no_region (s : pystr) :
  ~ In (chr "}") s -> first_to_last_brace s = None.
Proof.
  intros Hn. unfold first_to_last_brace.
  destruct (split_first (chr "{") s) as [[b rest]|] eqn:E; [|reflexivity].
  apply split_first_app in E. destruct E as [-> _].
  assert (H : split_last (chr "}") rest = None).
  { apply split_last_none. intros Hin. apply Hn.
    apply in_or_app. right. now right. }
  now rewrite H.
Qed.

(** The search of line 69 finds the region from the first [{] to the last
    [}]. *)
Lemma search_json_object_from (s : pystr) :
  forall prev before,
    Re.search_from json_object_re prev before s
    = option_map (fun r => (rev before ++ fst (fst r), snd (fst r), snd r))
                 (first_to_last_brace s).
Proof.
  induction s as [|x s IH]; intros prev before; [reflexivity|].
  simpl Re.search_from. rewrite json_object_re_match.
  destruct (N.eqb_spec x (chr "{")) as [->|Hne].
  - unfold first_to_last_brace. simpl.
    destruct (split_last (chr "}") s) as [[inside after]|] eqn:E; simpl.
    + apply split_last_app in E. destruct E as [-> _].
      rewrite consumed_split. now rewrite app_nil_r.
    + rewrite IH. apply split_last_none in E.
      now rewrite (no_brace_no_region s E).
  - rewrite IH, first_to_last_brace_cons by assumption.
    destruct (first_to_last_brace s) as [[[b m] a]|]; simpl; [|reflexivity].
    now rewrite <- app_assoc.
Qed.

Lemma search_json_object (text : pystr) :
  Re.search json_object_re text = first_to_last_brace text.
Proof.
  unfold Re.search. rewrite search_json_object_from.
  destruct (first_to_last_brace text) as [[[b m] a]|]; reflexivity.
Qed.

(** A literal under [re.IGNORECASE] matches the texts that start with it;
    the continuation sees the last character matched. *)
Lemma litI_exec (p : pystr) :
  p <> [] ->
  forall s prev k,
    Re.exec (Re.lit_of ci_eq p) prev s k
    = if starts_ci p s
      then k (nth_error s (length p - 1)) (skipn (length p) s)
      else None.
Proof.
  induction p as [|a p IH]; intros Hne s prev k; [contradiction|].
  destruct p as [|b p].
  - destruct s as [|x s]; simpl; [reflexivity|].
    destruct (ci_eq a x); reflexivity.
  - assert (Hp : b :: p <> []) by discriminate.
    specialize (IH Hp).
    change (Re.lit_of ci_eq (a :: b :: p))
      with (Re.Cat (Re.Chr (ci_eq a)) (Re.lit_of ci_eq (b :: p))).
    destruct s as [|x s]; [reflexivity|].
    cbn [Re.exec].
    change (starts_ci (a :: b :: p) (x :: s))
      with (ci_eq a x && starts_ci (b :: p) s).
    destruct (ci_eq a x); [|reflexivity].
    rewrite IH. cbn [andb].
    destruct (starts_ci (b :: p) s); [|reflexivity].
    cbn [length Nat.sub skipn nth_error]. now rewrite Nat.sub_0_r.
Qed.

Lemma upto_first_close_app (s m rest : pystr) :
  upto_first_close s = Some (m, rest) -> s = m ++ rest.
Proof.
  revert m rest. induction s as [|x s IH]; intros m rest.
  - simpl. discriminate.
  - cbn [upto_first_close].
    destruct (starts_ci (str "</steps>") (x :: s)).
    + intros H.
      replace m with (firstn 8 (x :: s)) by congruence.
      replace rest with (skipn 8 (x :: s)) by congruence.
      symmetry. apply firstn_skipn.
    + destruct (upto_first_close s) as [[m' r']|]; [|discriminate].
      simpl. intros H. inversion H. subst. now rewrite (IH m' rest eq_refl).
Qed.

(** The lazy [.*?] followed by the closing tag: the text after the first
    closing tag. *)
Lemma lazy_any_then_close (s : pystr) :
  forall prev,
    Re.rep Re.any false 0 None prev s
      (fun p s' => Re.exec (Re.litI "</steps>") p s' Re.accept)
    = option_map snd (upto_first_close s).
Proof.
  assert (Hne : str "</steps>" <> []) by discriminate.
  induction s as [|x s IH]; intros prev.
  - reflexivity.
  - cbn [Re.rep upto_first_close]. unfold Re.litI at 1.
    rewrite (litI_exec _ Hne).
    destruct (starts_ci (str "</steps>") (x :: s)); [reflexivity|].
    cbn [Re.any andb Re.exhausted negb option_map pred].
    rewrite IH. now destruct (upto_first_close s) as [[]|].
Qed.

Section StepsPattern.

Variable rt : runtime.

Lemma steps_re_match (prev : option N) (s : pystr) :
  Re.match_at (steps_re rt) prev s
  = if opens_steps (is_word rt) s
    then option_map snd (upto_first_close (skipn 6 s))
    else None.
Proof.
  assert (Hne : str "<steps" <> []) by discriminate.
  unfold Re.match_at, steps_re, opens_steps. cbn [Re.exec]. unfold Re.litI at 1.
  rewrite (litI_exec _ Hne).
  destruct (starts_ci (str "<steps") s); [|reflexivity].
  change (length (str "<steps") - 1) with 5.
  change (length (str "<steps")) with 6.
  cbn [andb].
  destruct (xorb _ _); [|reflexivity].
  apply lazy_any_then_close.
Qed.

(** The search of line 213 finds the region from the first opening tag to
    the first closing tag after it. *)
Lemma search_steps_from (s : pystr) :
  forall prev before,
    Re.search_from (steps_re rt) prev before s
    = first_open_to_first_close (is_word rt) before s.
Proof.
  induction s as [|x s IH]; intros prev before.
  - cbn [Re.search_from first_open_to_first_close].
    rewrite steps_re_match. reflexivity.
  - cbn [Re.search_from first_open_to_first_close]. rewrite steps_re_match.
    destruct (opens_steps (is_word rt) (x :: s)); [|apply IH].
    destruct (upto_first_close (skipn 6 (x :: s))) as [[m rest]|] eqn:E;
      [|apply IH].
    cbn [option_map snd]. apply upto_first_close_app in E.
    rewrite <- (firstn_skipn 6 (x :: s)) at 1. rewrite E, app_assoc.
    now rewrite consumed_app.
Qed.

Lemma search_steps (text : pystr) :
  Re.search (steps_re rt) text = first_open_to_first_close (is_word rt) [] text.
Proof. apply search_steps_from. Qed.

End StepsPattern.

(** ** The JSON scanner consumes its text from the left *)

Lemma suffix_refl (s : pystr) : suffix s s.
Proof. now exists []. Qed.

Lemma suffix_cons (x : N) (r s : pystr) : suffix r s -> suffix r (x :: s).
Proof. intros [pre ->]. now exists (x :: pre). Qed.

Lemma suffix_trans (a b c : pystr) : suffix a b -> suffix b c -> suffix a c.
Proof. intros [p ->] [q ->]. exists (q ++ p). now rewrite app_assoc. Qed.

Lemma suffix_skipn (n : nat) (s : pystr) : suffix (skipn n s) s.
Proof. exists (firstn n s). symmetry. apply firstn_skipn. Qed.

Lemma suffix_tl (s : pystr) : suffix (tl s) s.
Proof. destruct s; [apply suffix_refl|apply suffix_cons, suffix_refl]. Qed.

Lemma suffix_skip_ws (s : pystr) : suffix (skip_ws s) s.
Proof.
  induction s as [|x s IH]; simpl; [apply suffix_refl|].
  destruct (is_ws x); [now apply suffix_cons|apply suffix_refl].
Qed.

Create HintDb suffix.

#[local] Hint Resolve suffix_refl suffix_cons suffix_skipn suffix_tl
  suffix_skip_ws : suffix.

Lemma cons_result_ok (c : N) (r : result (pystr * pystr)) (out rest : pystr) :
  cons_result c r = Ok (out, rest) -> exists out', r = Ok (out', rest).
Proof.
  destruct r as [[o r']|]; simpl; [|discriminate].
  intros H. inversion H. eauto.
Qed.

Functional Scheme scanstring_ind := Induction for scanstring Sort Prop.

Lemma scanstring_suffix (s : pystr) :
  forall out rest, scanstring s = Ok (out, rest) -> suffix rest s.
Proof.
  functional induction (scanstring s); intros out rest H;
    try discriminate H.
  1: { inversion H. subst. apply suffix_cons, suffix_refl. }
  all: apply cons_result_ok in H; destruct H as [o' H']; apply IHr in H';
    (eapply suffix_trans; [exact H'|]);
    repeat first [apply suffix_refl | apply suffix_cons].
Qed.

Lemma span_app (p : N -> bool) (s a b : pystr) :
  span p s = (a, b) -> s = a ++ b.
Proof.
  revert a b. induction s as [|x s IH]; intros a b; simpl.
  - intros H. now inversion H.
  - destruct (p x).
    + destruct (span p s) as [a' b']. intros H. inversion H. subst.
      simpl. now rewrite (IH a' b eq_refl).
    + intros H. now inversion H.
Qed.

Lemma span_suffix (p : N -> bool) (s a b : pystr) :
  span p s = (a, b) -> suffix b s.
Proof. intros H. exists a. now apply (span_app p). Qed.

(** Case analysis on the next [match] or [if] of a hypothesis. *)
Ltac break_in H :=
  match type of H with
  | context [match ?x with _ => _ end] =>
      let E := fresh "E" in destruct x eqn:E; try discriminate H
  | context [if ?x then _ else _] =>
      let E := fresh "E" in destruct x eqn:E; try discriminate H
  end.

Lemma match_number_suffix (s : pystr) (r : result pyval) (rest : pystr) :
  match_number s = Some (r, rest) -> suffix rest s.
Proof.
  unfold match_number.
  set (p1 := match s with
             | c :: t => if N.eqb c (chr "-") then (true, t) else (false, s)
             | [] => (false, s)
             end).
  assert (H1 : suffix (snd p1) s).
  { subst p1. destruct s as [|c t]; [apply suffix_refl|].
    destruct (N.eqb c (chr "-")); cbn [snd]; auto with suffix. }
  destruct p1 as [neg s1]. cbn [snd] in H1.
  destruct s1 as [|c t]; [discriminate|].
  destruct (negb (is_ascii_digit c)); [discriminate|].
  set (p2 := if N.eqb c (chr "0") then ([c], t) else span is_ascii_digit (c :: t)).
  assert (H2 : suffix (snd p2) (c :: t)).
  { subst p2. destruct (N.eqb c (chr "0")); cbn [snd]; [auto with suffix|].
    destruct (span is_ascii_digit (c :: t)) as [a b] eqn:E.
    apply span_suffix in E. exact E. }
  destruct p2 as [int_digits s2]. cbn [snd] in H2.
  set (p3 := match s2 with
             | dot :: f :: _ =>
                 if N.eqb dot (chr ".") && is_ascii_digit f
                 then span is_ascii_digit (tl s2) else ([], s2)
             | _ => ([], s2)
             end).
  assert (H3 : suffix (snd p3) s2).
  { subst p3. destruct s2 as [|dot [|f u]]; try apply suffix_refl.
    destruct (N.eqb dot (chr ".") && is_ascii_digit f); [|apply suffix_refl].
    destruct (span is_ascii_digit (tl (dot :: f :: u))) as [a b] eqn:E.
    apply span_suffix in E. cbn [tl snd] in E |- *. now apply suffix_cons. }
  destruct p3 as [frac s3]. cbn [snd] in H3.
  set (p4 := match s3 with
             | e :: s3' => _
             | [] => (false, false, [], s3)
             end).
  assert (H4 : suffix (snd p4) s3).
  { subst p4. destruct s3 as [|e s3']; [apply suffix_refl|].
    destruct (mem e (str "eE")); [|apply suffix_refl].
    set (p5 := match s3' with
               | sg :: u => _
               | [] => (false, s3')
               end).
    assert (H5 : suffix (snd p5) s3').
    { subst p5. destruct s3' as [|sg u]; [apply suffix_refl|].
      destruct (N.eqb sg (chr "-")); [cbn [snd]; auto with suffix|].
      destruct (N.eqb sg (chr "+")); cbn [snd]; auto with suffix. }
    destruct p5 as [sign s3'']. cbn [snd] in H5.
    destruct (span is_ascii_digit s3'') as [ds rest'] eqn:E.
    apply span_suffix in E.
    destruct ds; cbn [snd]; [apply suffix_refl|].
    apply suffix_cons. eapply suffix_trans; eassumption. }
  destruct p4 as [[[has_exp exp_neg] exp_digits] s4]. cbn [snd] in H4.
  assert (Hs : suffix s4 s).
  { eapply suffix_trans; [exact H4|]. eapply suffix_trans; [exact H3|].
    eapply suffix_trans; [exact H2|exact H1]. }
  clear H1 H2 H3 H4.
  destruct frac, has_exp; intros H; injection H as _ <-; exact Hs.
Qed.

Lemma suffix_uncons (x : N) (r s : pystr) : suffix (x :: r) s -> suffix r s.
Proof. intros [pre ->]. exists (pre ++ [x]). now rewrite <- app_assoc. Qed.

Lemma suffix_of_eq (a b s : pystr) : a = b -> suffix a s -> suffix b s.
Proof. now intros ->. Qed.

Lemma closes_suffix (pre r s : pystr) : s = pre ++ chr "}" :: r -> suffix r s.
Proof. intros ->. exists (pre ++ [chr "}"]). now rewrite <- app_assoc. Qed.

Lemma bind_ok {A B : Type} (m : result A) (f : A -> result B) (b : B) :
  bind m f = Ok b -> exists a, m = Ok a /\ f a = Ok b.
Proof. destruct m; simpl; [eauto|discriminate]. Qed.

(** From [Ok (_, b) = Ok (_, r)]: the goal, with [b] for [r]. *)
Ltac take_rest H :=
  match type of H with
  | Ok (_, ?b) = Ok (_, ?r) =>
      let E := fresh in
      assert (E : b = r) by congruence; rewrite <- E; clear E
  end.

Lemma scanner_suffix (n : nat) :
  (forall depth s v r, scan_once n depth s = Ok (v, r) -> suffix r s)
  /\ (forall depth s ps ps' r,
         object_members n depth s ps = Ok (ps', r) ->
         exists pre, s = pre ++ chr "}" :: r)
  /\ (forall depth s vs vs' r,
         array_rest n depth s vs = Ok (vs', r) -> suffix r s).
Proof.
  induction n as [|n (IHscan & IHobj & IHarr)].
  - repeat split; intros; discriminate.
  - split; [|split].
    + intros depth s v r H. cbn [scan_once] in H.
      destruct s as [|c s']; [discriminate|].
      destruct (N.eqb c DQUOTE).
      { apply bind_ok in H. destruct H as ([k rest] & E & H).
        take_rest H. apply scanstring_suffix in E. now apply suffix_cons. }
      destruct (N.eqb c (chr "{")).
      { destruct depth as [|depth']; [discriminate|].
        match type of H with
        | match ?x with _ => _ end = _ => set (s1 := x) in H
        end.
        assert (H1 : suffix s1 s').
        { subst s1. destruct (startswith _ s'); auto with suffix. }
        clearbody s1. destruct s1 as [|q s2]; [discriminate|].
        apply suffix_uncons in H1.
        destruct (N.eqb q (chr "}")).
        { take_rest H. now apply suffix_cons. }
        destruct (N.eqb q DQUOTE); [|discriminate].
        apply bind_ok in H. destruct H as ([pairs rest] & E & H).
        take_rest H. apply IHobj in E. destruct E as [pre E].
        apply closes_suffix in E. apply suffix_cons.
        eapply suffix_trans; eassumption. }
      destruct (N.eqb c (chr "[")).
      { destruct depth as [|depth']; [discriminate|].
        destruct (startswith (str "]") (skip_ws s')).
        { take_rest H. apply suffix_cons.
          eapply suffix_trans; [apply suffix_tl|apply suffix_skip_ws]. }
        apply bind_ok in H. destruct H as ([v0 rest0] & E0 & H).
        apply bind_ok in H. destruct H as ([values rest'] & E1 & H).
        take_rest H. apply IHscan in E0. apply IHarr in E1.
        apply suffix_cons. eapply suffix_trans; [exact E1|].
        eapply suffix_trans; [exact E0|apply suffix_skip_ws]. }
      destruct (startswith (str "null") (c :: s')).
      { take_rest H. apply suffix_skipn. }
      destruct (startswith (str "true") (c :: s')).
      { take_rest H. apply suffix_skipn. }
      destruct (startswith (str "false") (c :: s')).
      { take_rest H. apply suffix_skipn. }
      destruct (match_number (c :: s')) as [[r0 rest0]|] eqn:E.
      { apply bind_ok in H. destruct H as (v0 & _ & H). take_rest H.
        eapply match_number_suffix; eassumption. }
      destruct (startswith (str "NaN") (c :: s')).
      { take_rest H. apply suffix_skipn. }
      destruct (startswith (str "Infinity") (c :: s')).
      { take_rest H. apply suffix_skipn. }
      destruct (startswith (str "-Infinity") (c :: s')); [|discriminate].
      take_rest H. apply suffix_skipn.
    + intros depth s ps ps' r H. cbn [object_members] in H. unfold bind in H.
      destruct (scanstring s) as [[key s1]|] eqn:Ekey; [|discriminate].
      set (s2 := if startswith (str ":") s1 then s1 else skip_ws s1) in H.
      assert (H2 : suffix s2 s).
      { apply scanstring_suffix in Ekey. subst s2.
        destruct (startswith (str ":") s1); [assumption|].
        eapply suffix_trans; [apply suffix_skip_ws|assumption]. }
      clearbody s2.
      destruct (negb (startswith (str ":") s2)); [discriminate|].
      destruct (scan_once n depth (skip_ws (tl s2))) as [[value s3]|] eqn:Eval;
        [|discriminate].
      apply IHscan in Eval.
      assert (H3 : suffix (skip_ws s3) s).
      { eapply suffix_trans; [apply suffix_skip_ws|].
        eapply suffix_trans; [exact Eval|].
        eapply suffix_trans; [apply suffix_skip_ws|].
        eapply suffix_trans; [apply suffix_tl|exact H2]. }
      destruct (skip_ws s3) as [|d s4]; [discriminate|].
      destruct (N.eqb_spec d (chr "}")) as [->|_].
      * inversion H. subst. exact H3.
      * destruct (N.eqb d (chr ",")); [|discriminate].
        assert (H4 : suffix (skip_ws s4) s).
        { eapply suffix_trans; [apply suffix_skip_ws|].
          eapply suffix_uncons; exact H3. }
        destruct (skip_ws s4) as [|q s5]; [discriminate|].
        destruct (N.eqb q DQUOTE); [|discriminate].
        apply IHobj in H. destruct H as [pre ->].
        apply suffix_uncons in H4. destruct H4 as [pre' ->].
        exists (pre' ++ pre). now rewrite <- app_assoc.
    + intros depth s vs vs' r H. cbn [array_rest] in H.
      assert (H0 : suffix (skip_ws s) s) by apply suffix_skip_ws.
      destruct (skip_ws s) as [|d s1]; [discriminate|].
      apply suffix_uncons in H0.
      destruct (N.eqb d (chr "]")).
      { replace r with s1 by congruence. exact H0. }
      destruct (N.eqb d (chr ",")); [|discriminate].
      apply bind_ok in H. destruct H as ([v rest] & E & H).
      apply IHscan in E. apply IHarr in H.
      eapply suffix_trans; [exact H|]. eapply suffix_trans; [exact E|].
      eapply suffix_trans; [apply suffix_skip_ws|exact H0].
Qed.

Lemma match_number_not_dict (s : pystr) (v : pyval) (rest : pystr) :
  match_number s = Some (Ok v, rest) -> is_dict v = false.
Proof.
  unfold match_number, parse_int, bind. intros H.
  repeat break_in H; inversion H; subst; reflexivity.
Qed.

(** An object: the scanner returns a dict, and the text it consumed ends
    with a closing brace. *)
Lemma scan_once_object (n depth : nat) (s' : pystr) (v : pyval) (r : pystr) :
  scan_once (S n) depth (chr "{" :: s') = Ok (v, r) ->
  is_dict v = true /\ exists inside, s' = inside ++ chr "}" :: r.
Proof.
  intros H. cbn [scan_once] in H.
  change (N.eqb (chr "{") DQUOTE) with false in H.
  rewrite N.eqb_refl in H. cbv iota in H.
  destruct depth as [|depth']; [discriminate|].
  match type of H with
  | match ?x with _ => _ end = _ => set (s1 := x) in H
  end.
  assert (H1 : suffix s1 s').
  { subst s1. destruct (startswith _ s'); auto with suffix. }
  clearbody s1. destruct s1 as [|q s2]; [discriminate|].
  destruct (N.eqb_spec q (chr "}")) as [->|_].
  - inversion H. subst. split; [reflexivity|]. exact H1.
  - destruct (N.eqb q DQUOTE); [|discriminate].
    apply bind_ok in H. destruct H as ([pairs rest] & Hm & H).
    inversion H. subst. split; [reflexivity|].
    apply (proj1 (proj2 (scanner_suffix n))) in Hm. destruct Hm as [pre ->].
    destruct H1 as [pre' ->]. exists (pre' ++ q :: pre).
    now rewrite <- app_assoc.
Qed.

(** Only a text that starts with an opening brace scans to a dict. *)
Lemma scan_once_dict_start (n depth : nat) (s : pystr) (d : dict) (r : pystr) :
  scan_once n depth s = Ok (PDict d, r) -> exists s', s = chr "{" :: s'.
Proof.
  destruct n as [|n]; [discriminate|].
  intros H. cbn [scan_once] in H. unfold bind in H.
  destruct s as [|c s']; [discriminate|].
  destruct (N.eqb c DQUOTE).
  { repeat break_in H; discriminate. }
  destruct (N.eqb_spec c (chr "{")) as [->|_]; [eauto|].
  destruct (N.eqb c (chr "[")).
  { repeat break_in H; discriminate. }
  repeat break_in H; try discriminate.
  inversion H. subst.
  match goal with
  | E : match_number _ = Some (Ok _, _) |- _ =>
      apply match_number_not_dict in E; discriminate E
  end.
Qed.

(** A text that [json.loads] decodes to a dict is, white space apart, an
    opening brace, something, and a closing brace. *)
Lemma loads_dict_braces (limit : nat) (s : pystr) (d : dict) :
  Json.loads limit s = Ok (PDict d) ->
  exists inside after,
    skip_ws s = chr "{" :: inside ++ chr "}" :: after /\ skip_ws after = [].
Proof.
  unfold Json.loads, decode. destruct (startswith _ s); [discriminate|].
  intros H. apply bind_ok in H. destruct H as ([obj rest] & Hs & H).
  destruct (skip_ws rest) eqn:Hr; [|discriminate].
  inversion H. subst obj.
  destruct (scan_once_dict_start _ _ _ _ _ Hs) as [s' E]. rewrite E in Hs |- *.
  apply scan_once_object in Hs. destruct Hs as [_ [inside ->]].
  eauto.
Qed.

(** A text that starts with an opening brace decodes to a dict, if it
    decodes at all. *)
Lemma loads_object_is_dict (limit : nat) (s' : pystr) (v : pyval) :
  Json.loads limit (chr "{" :: s') = Ok v -> is_dict v = true.
Proof.
  unfold Json.loads, decode.
  change (startswith [65279%N] (chr "{" :: s')) with false.
  change (skip_ws (chr "{" :: s')) with (chr "{" :: s').
  cbv iota. intros H. apply bind_ok in H. destruct H as ([obj rest] & Hs & H).
  apply scan_once_object in Hs. destruct Hs as [Hd _].
  destruct (skip_ws rest); [|discriminate]. now inversion H; subst.
Qed.

(** ** [str.strip] *)

Lemma is_ws_isspace (c : N) : is_ws c = true -> isspace c = true.
Proof.
  unfold is_ws, mem. simpl. intros H.
  repeat (apply orb_prop in H; destruct H as [H|H]); try discriminate;
    apply N.eqb_eq in H; subst; reflexivity.
Qed.

Lemma lstrip_suffix (s : pystr) : suffix (lstrip s) s.
Proof.
  induction s as [|x s IH]; simpl; [apply suffix_refl|].
  destruct (isspace x); [now apply suffix_cons|apply suffix_refl].
Qed.

Lemma lstrip_head (s : pystr) (c : N) (t : pystr) :
  lstrip s = c :: t -> isspace c = false.
Proof.
  induction s as [|x s IH]; simpl; [discriminate|].
  destruct (isspace x) eqn:E; [assumption|].
  intros H. inversion H. now subst.
Qed.

Lemma rstrip_prefix (s : pystr) : exists r, s = rstrip s ++ r.
Proof.
  induction s as [|x s [r IH]]; [now exists []|].
  simpl. destruct (rstrip s) as [|y u] eqn:E.
  - destruct (isspace x); [now exists (x :: s)|].
    exists s. reflexivity.
  - exists r. simpl. now rewrite IH at 1.
Qed.

Lemma rstrip_length (s : pystr) : length (rstrip s) <= length s.
Proof.
  destruct (rstrip_prefix s) as [r E]. rewrite E at 2.
  rewrite length_app. lia.
Qed.

Lemma rstrip_head (s : pystr) (c : N) (t : pystr) :
  rstrip s = c :: t -> exists t', s = c :: t'.
Proof.
  destruct (rstrip_prefix s) as [r E]. intros H. rewrite H in E.
  rewrite E. simpl. eauto.
Qed.

Lemma rstrip_spaces (s : pystr) :
  Forall (fun c => isspace c = true) s -> rstrip s = [].
Proof.
  induction 1 as [|x s Hx _ IH]; [reflexivity|].
  simpl. now rewrite IH, Hx.
Qed.

Lemma rstrip_app_spaces (a after : pystr) :
  Forall (fun c => isspace c = true) after -> rstrip (a ++ after) = rstrip a.
Proof.
  intros H. induction a as [|x a IH]; simpl.
  - now apply rstrip_spaces.
  - now rewrite IH.
Qed.

Lemma rstrip_idempotent (s : pystr) : rstrip (rstrip s) = rstrip s.
Proof.
  induction s as [|x s IH]; [reflexivity|].
  simpl. destruct (rstrip s) as [|y u] eqn:E.
  - destruct (isspace x) eqn:Hx; [reflexivity|].
    simpl. now rewrite Hx.
  - change (rstrip (x :: y :: u)) with
      (match rstrip (y :: u) with
       | [] => if isspace x then [] else [x]
       | r => x :: r
       end).
    now rewrite IH.
Qed.

Lemma skip_ws_nil (s : pystr) :
  skip_ws s = [] -> Forall (fun c => isspace c = true) s.
Proof.
  induction s as [|x s IH]; simpl; [constructor|].
  destruct (is_ws x) eqn:E; [|discriminate].
  intros H. constructor; [now apply is_ws_isspace|auto].
Qed.

(** A stripped text neither starts nor ends with white space. *)
Lemma strip_no_lead (s : pystr) : skip_ws (strip s) = strip s.
Proof.
  unfold strip. destruct (rstrip (lstrip s)) as [|c t] eqn:E; [reflexivity|].
  destruct (rstrip_head _ _ _ E) as [t' E'].
  apply lstrip_head in E'. simpl.
  destruct (is_ws c) eqn:W; [|reflexivity].
  apply is_ws_isspace in W. congruence.
Qed.

Lemma strip_no_trail (s a after : pystr) :
  strip s = a ++ after -> skip_ws after = [] -> after = [].
Proof.
  intros E W. apply skip_ws_nil in W.
  assert (H : rstrip (strip s) = strip s) by apply rstrip_idempotent.
  rewrite E, rstrip_app_spaces in H by assumption.
  pose proof (rstrip_length a) as L. rewrite H, length_app in L.
  destruct after; [reflexivity|simpl in L; lia].
Qed.

(** The stripped text is a part of the text. *)
Lemma strip_infix (s : pystr) : exists l r, s = l ++ strip s ++ r.
Proof.
  unfold strip. destruct (lstrip_suffix s) as [l E].
  destruct (rstrip_prefix (lstrip s)) as [r E'].
  exists l, r. now rewrite <- E'.
Qed.

(** ** The extraction *)

Lemma split_last_snoc (c : N) (s : pystr) :
  split_last c (s ++ [c]) = Some (s, []).
Proof.
  induction s as [|x s IH]; simpl.
  - now rewrite N.eqb_refl.
  - now rewrite IH.
Qed.

(** What [first_to_last_brace] returns: the text is cut in three, there is
    no opening brace before the region and no closing brace after it, and
    the region starts and ends with a brace. *)
Lemma first_to_last_brace_spec (s before region after : pystr) :
  first_to_last_brace s = Some (before, region, after) ->
  s = before ++ region ++ after
  /\ ~ In (chr "{") before /\ ~ In (chr "}") after
  /\ exists inside, region = chr "{" :: inside ++ [chr "}"].
Proof.
  unfold first_to_last_brace.
  destruct (split_first (chr "{") s) as [[b rest]|] eqn:E1; [|discriminate].
  destruct (split_last (chr "}") rest) as [[inside a]|] eqn:E2; [|discriminate].
  intros H. inversion H. subst. clear H.
  apply split_first_app in E1. destruct E1 as [-> Hb].
  apply split_last_app in E2. destruct E2 as [-> Ha].
  repeat split; try assumption; [|eauto].
  simpl. now rewrite <- app_assoc.
Qed.

Lemma first_to_last_brace_none (s : pystr) :
  first_to_last_brace s = None ->
  forall a b c, s <> a ++ chr "{" :: b ++ chr "}" :: c.
Proof.
  unfold first_to_last_brace. intros H a b c ->.
  destruct (split_first (chr "{") (a ++ chr "{" :: b ++ chr "}" :: c))
    as [[before rest]|] eqn:E1.
  - destruct (split_last (chr "}") rest) as [[inside after]|] eqn:E2;
      [discriminate|].
    apply split_last_none in E2. apply split_first_app in E1.
    destruct E1 as [E1 Hb]. apply E2.
    (* the closing brace lies after the first opening brace *)
    assert (Hin : In (chr "}") (before ++ chr "{" :: rest)).
    { rewrite <- E1. apply in_or_app. right. right.
      apply in_or_app. right. now left. }
    assert (Hlen : length before <= length a).
    { destruct (Nat.le_gt_cases (length before) (length a)); [assumption|].
      exfalso. apply Hb.
      assert (E : nth (length a) (before ++ chr "{" :: rest) 0%N = chr "{").
      { rewrite <- E1, app_nth2, Nat.sub_diag by lia. reflexivity. }
      rewrite app_nth1 in E by assumption. rewrite <- E.
      now apply nth_In. }
    assert (Hr : exists p, rest = p ++ chr "}" :: c).
    { assert (E : skipn (S (length before)) (a ++ chr "{" :: b ++ chr "}" :: c)
                  = rest).
      { rewrite E1. rewrite skipn_app.
        rewrite skipn_all2 by lia.
        replace (S (length before) - length before) with 1 by lia.
        reflexivity. }
      rewrite skipn_app in E.
      destruct (Nat.eq_dec (length before) (length a)) as [El|Hl].
      - rewrite skipn_all2 in E by lia.
        replace (S (length before) - length a) with 1 in E by lia.
        simpl in E. exists b. now rewrite <- E.
      - exists (skipn (S (length before)) a ++ chr "{" :: b).
        rewrite <- E.
        replace (S (length before) - length a) with 0 by lia.
        simpl. now rewrite <- app_assoc. }
    destruct Hr as [p ->]. apply in_or_app. right. now left.
  - apply split_first_none in E1. apply E1.
    apply in_or_app. right. now left.
Qed.

Lemma first_to_last_brace_whole (inside : pystr) :
  first_to_last_brace (chr "{" :: inside ++ [chr "}"])
  = Some ([], chr "{" :: inside ++ [chr "}"], []).
Proof.
  unfold first_to_last_brace. simpl. now rewrite split_last_snoc.
Qed.

(** When the whole stripped text decodes to a dict, the braced region is
    the whole stripped text. *)
Lemma loads_dict_region (limit : nat) (text : pystr) (d : dict) :
  Json.loads limit (strip text) = Ok (PDict d) ->
  first_to_last_brace (strip text) = Some ([], strip text, []).
Proof.
  intros H. apply loads_dict_braces in H.
  destruct H as (inside & after & E & W).
  rewrite strip_no_lead in E.
  assert (A : after = []).
  { eapply (strip_no_trail text (chr "{" :: inside ++ [chr "}"]));
      [|exact W].
    rewrite E. simpl. now rewrite <- app_assoc. }
  subst after. rewrite E. apply first_to_last_brace_whole.
Qed.

Lemma extract_fallback_region (limit : nat)
    (text before region after : pystr) :
  first_to_last_brace text = Some (before, region, after) ->
  extract_fallback limit text
  = bind (Json.loads limit region)
         (fun obj => match obj with PDict d => Ok d | _ => Raise NotAnObject end).
Proof.
  intros H. unfold extract_fallback. now rewrite search_json_object, H.
Qed.

(** C2, counterexample: a valid JSON object text need not be returned. An
    object whose member is an integer of 4300 digits is returned; with 4301
    digits [int] refuses the literal, at line 61 inside the [try] and again
    at line 74 outside it, so the extraction raises, whatever nesting the
    interpreter allows. And an object nested one level deeper than the
    interpreter allows raises [RecursionError] in the same way. *)
Lemma extract_raises_on_valid_json :
  (exists n,
      extract_json_object 1000 (Some (long_integer_object 4300))
      = Ok [(str "n", PInt n)])
  /\ extract_json_object 1000 (Some (long_integer_object 4301))
     = Raise IntStrDigitsLimit
  /\ ~ (exists limit d,
           extract_json_object limit (Some (long_integer_object 4301)) = Ok d)
  /\ extract_json_object 4 (Some (qstr "{'a': [[[1]]]}"))
     = Ok [(str "a", PList [PList [PList [PInt 1]]])]
  /\ extract_json_object 3 (Some (qstr "{'a': [[[1]]]}")) = Raise RecursionError.
Proof.
  split; [|split; [|split; [|split]]].
  - eexists. vm_compute. reflexivity.
  - vm_compute. reflexivity.
  - intros (limit & d & H). destruct limit; vm_compute in H; discriminate H.
  - reflexivity.
  - reflexivity.
Qed.

(** C2, as amended: whatever nesting the interpreter allows, a text that
    [json.loads] decodes to an object is returned as decoded; a text with a
    braced region, from its first opening brace to its last closing brace,
    that decodes to an object gives that object, and one whose braced region
    does not decode raises the error of the decoder; a text with no opening
    brace followed by a closing brace fails with [NoJsonFound]. *)
Theorem extract_json_object_spec :
  (forall limit text d,
      Json.loads limit (strip text) = Ok (PDict d) ->
      extract_json_object limit (Some text) = Ok d)
  /\ (forall limit text before region after d,
         first_to_last_brace (strip text) = Some (before, region, after) ->
         Json.loads limit region = Ok (PDict d) ->
         extract_json_object limit (Some text) = Ok d)
  /\ (forall limit text before region after e,
         first_to_last_brace (strip text) = Some (before, region, after) ->
         Json.loads limit region = Raise e ->
         extract_json_object limit (Some text) = Raise e)
  /\ (forall limit text,
         (forall a b c, text <> a ++ chr "{" :: b ++ chr "}" :: c) ->
         extract_json_object limit (Some text) = Raise NoJsonFound).
Proof.
  split; [|split; [|split]].
  - intros limit text d H. unfold extract_json_object. now rewrite H.
  - intros limit text before region after d R L. unfold extract_json_object.
    destruct (Json.loads limit (strip text)) as [v|e] eqn:D.
    + destruct v; cbn [bind try_except];
        try (rewrite (extract_fallback_region _ _ _ _ _ R), L; reflexivity).
      rewrite (loads_dict_region _ _ _ D) in R. inversion R. subst region.
      congruence.
    + cbn [bind try_except].
      now rewrite (extract_fallback_region _ _ _ _ _ R), L.
  - intros limit text before region after e R L. unfold extract_json_object.
    destruct (Json.loads limit (strip text)) as [v|e'] eqn:D.
    + destruct v; cbn [bind try_except];
        try (rewrite (extract_fallback_region _ _ _ _ _ R), L; reflexivity).
      rewrite (loads_dict_region _ _ _ D) in R. inversion R. subst region.
      congruence.
    + cbn [bind try_except].
      now rewrite (extract_fallback_region _ _ _ _ _ R), L.
  - intros limit text Hno. unfold extract_json_object.
    assert (Hs : forall a b c, strip text <> a ++ chr "{" :: b ++ chr "}" :: c).
    { intros a b c E. destruct (strip_infix text) as (l & r & T).
      apply (Hno (l ++ a) b (c ++ r)). rewrite T, E.
      repeat (rewrite <- app_assoc; simpl). reflexivity. }
    assert (F : extract_fallback limit (strip text) = Raise NoJsonFound).
    { unfold extract_fallback. rewrite search_json_object.
      destruct (first_to_last_brace (strip text)) as [[[b m] a]|] eqn:R;
        [|reflexivity].
      apply first_to_last_brace_spec in R.
      destruct R as (E & _ & _ & inside & ->).
      exfalso. apply (Hs b inside a). rewrite E. simpl.
      now rewrite <- app_assoc. }
    destruct (Json.loads limit (strip text)) as [v|e] eqn:D;
      cbn [bind try_except]; [|exact F].
    destruct v; try exact F.
    exfalso. apply loads_dict_region in D.
    apply first_to_last_brace_spec in D.
    destruct D as (E & _ & _ & inside & Em).
    apply (Hs [] inside []). rewrite Em at 1. reflexivity.
Qed.

Lemma extract_json_object_spec_witness :
  extract_json_object 1000 (Some (qstr " {'a': 1} ")) = Ok [(str "a", PInt 1)]
  /\ extract_json_object 1000
       (Some (qstr "Here is the result: {'a': 1} Done."))
     = Ok [(str "a", PInt 1)]
  /\ extract_json_object 1000 (Some (qstr "Result: {'a': [[1]} Done."))
     = Raise (JSONDecodeError "Expecting ',' delimiter")
  /\ extract_json_object 1000 (Some (str "no object here")) = Raise NoJsonFound.
Proof.
  split; [|split; [|split]].
  - apply (proj1 extract_json_object_spec). reflexivity.
  - apply (proj1 (proj2 extract_json_object_spec) 1000
             (qstr "Here is the result: {'a': 1} Done.")
             (str "Here is the result: ") (qstr "{'a': 1}") (str " Done."));
      reflexivity.
  - apply (proj1 (proj2 (proj2 extract_json_object_spec)) 1000
             (qstr "Result: {'a': [[1]} Done.")
             (str "Result: ") (qstr "{'a': [[1]}") (str " Done."));
      reflexivity.
  - apply (proj2 (proj2 (proj2 extract_json_object_spec))).
    intros a b c E.
    assert (H : In (chr "{") (str "no object here")).
    { rewrite E. apply in_or_app. right. now left. }
    vm_compute in H. intuition discriminate.
Defined.

(** C10: when the whole text decodes to a value that is not a mapping, the
    error of line 64 is caught and the extraction goes on to the brace search:
    the inner object of a JSON array of one object is returned, as soon as
    the interpreter allows one container, and a JSON array of numbers fails
    with [NoJsonFound]; and whatever the braced region decodes to is a dict,
    so the check of line 75 never fires. *)
Theorem extract_top_level_not_object :
  (forall limit text v,
      Json.loads limit (strip text) = Ok v -> is_dict v = false ->
      extract_json_object limit (Some text)
      = extract_fallback limit (strip text))
  /\ (forall limit text before region after v,
         Re.search json_object_re text = Some (before, region, after) ->
         Json.loads limit region = Ok v -> is_dict v = true)
  /\ (forall limit,
         extract_json_object (S limit) (Some (qstr "[{'a': 1}]"))
         = Ok [(str "a", PInt 1)])
  /\ (forall limit,
         extract_json_object limit (Some (str "[1, 2]")) = Raise NoJsonFound).
Proof.
  split; [|split; [|split]].
  - intros limit text v L D. unfold extract_json_object. rewrite L.
    destruct v; try reflexivity. discriminate D.
  - intros limit text before region after v S L.
    rewrite search_json_object in S.
    apply first_to_last_brace_spec in S.
    destruct S as (_ & _ & _ & inside & ->).
    eapply loads_object_is_dict. exact L.
  - intros [|limit]; reflexivity.
  - intros [|limit]; reflexivity.
Qed.

Lemma extract_top_level_not_object_witness :
  extract_json_object 1000 (Some (str "[1, 2]"))
  = extract_fallback 1000 (str "[1, 2]").
Proof.
  exact (proj1 extract_top_level_not_object 1000 (str "[1, 2]")
           (PList [PInt 1; PInt 2]) eq_refl eq_refl).
Defined.

(** ** The region extraction *)

(** C9, counterexample: in a text with two steps elements the markup
    pattern selects the first element only, from the first opening tag to
    the first closing tag; under no runtime does it select the text from the
    first opening tag to the last closing tag. *)
Lemma steps_region_is_not_first_to_last :
  let text := str "<steps><step>a</step></steps><steps><step>b</step></steps>" in
  Re.search (steps_re reference_runtime) text
  = Some ([], str "<steps><step>a</step></steps>",
          str "<steps><step>b</step></steps>")
  /\ ~ exists rt, Re.search (steps_re rt) text = Some ([], text, []).
Proof.
  split; [reflexivity|].
  intros [rt H]. rewrite search_steps in H. vm_compute in H. discriminate H.
Qed.

(** C9, as amended: the JSON recovery selects the substring from the first
    opening brace to the last closing brace of the text; the markup
    extraction selects the substring from the first opening [<steps] tag
    that has a closing tag after it to the first [</steps>] that follows. *)
Theorem region_extraction :
  (forall text, Re.search json_object_re text = first_to_last_brace text)
  /\ (forall rt text,
         Re.search (steps_re rt) text
         = first_open_to_first_close (is_word rt) [] text).
Proof.
  split.
  - exact search_json_object.
  - exact search_steps.
Qed.

(** ** The fallback chain of the stage-field parser *)

(** C8, counterexample: the field parses as it is, and its one step has the
    action "click button"; because its text mentions an escaped steps tag,
    strategy B runs all the same, its parse fails, and the parser returns no
    step. *)
Lemma first_parse_is_discarded :
  match _try_parse reference_runtime (strip escaped_mention_field) with
  | Some root =>
      records_of_root reference_runtime root
      = Ok [ {| action := str "click button"; expected := [] |} ]
  | None => False
  end
  /\ parse_steps_from_tcm_field reference_runtime (Some escaped_mention_field)
     = Ok [].
Proof. split; vm_compute; reflexivity. Qed.

(** C8, as amended: when the raw text parses in strategy A and does not
    contain the escaped opening tag [&lt;steps] (in any case), the records
    are those of that parse; when it contains it, strategy B runs although
    strategy A succeeded, and the records are those of the parse of
    strategy B (none when that parse fails). *)
Theorem first_parse_kept_unless_escaped (rt : runtime) (value : pystr)
    (root : Element) :
  value <> [] ->
  _try_parse rt (strip value) = Some root ->
  parse_steps_from_tcm_field rt (Some value)
  = if contains (str "&lt;steps") (lower (strip value))
    then bind (strategy_B rt (strip value))
              (fun r => match r with
                        | None => Ok []
                        | Some r => records_of_root rt r
                        end)
    else records_of_root rt root.
Proof.
  intros Hne Hp. unfold parse_steps_from_tcm_field.
  destruct value as [|c v]; [contradiction|].
  rewrite Hp. unfold needs_strategy_B. cbn [orb].
  destruct (contains (str "&lt;steps") (lower (strip (c :: v)))); reflexivity.
Qed.

Lemma first_parse_kept_unless_escaped_witness :
  parse_steps_from_tcm_field reference_runtime (Some two_step_field)
  = Ok [ {| action := str "Open App"; expected := [] |};
         {| action := str "Tap Login"; expected := [] |} ].
Proof.
  refine (eq_trans
    (first_parse_kept_unless_escaped reference_runtime two_step_field
       (match _try_parse reference_runtime (strip two_step_field) with
        | Some r => r
        | None => Elem [] [] None [] None
        end) _ _) _).
  - discriminate.
  - vm_compute. reflexivity.
  - vm_compute. reflexivity.
Defined.

(** ** The conversion input *)

Lemma collect_steps_lines (steps : list StepRecord) :
  snd (collect_steps steps)
  = filter nonempty (map action (fst (collect_steps steps))).
Proof.
  induction steps as [|s rest IH]; [reflexivity|].
  simpl. destruct (collect_steps rest) as [structured lines].
  simpl in IH. subst lines.
  destruct (strip (action s)) as [|a0 a]; destruct (strip (expected s));
    reflexivity.
Qed.

Lemma filter_nonempty_idem (l : list pystr) :
  filter nonempty (filter nonempty l) = filter nonempty l.
Proof.
  induction l as [|x l IH]; [reflexivity|].
  simpl. destruct (nonempty x) eqn:E; simpl; rewrite ?E, IH; reflexivity.
Qed.

(** C7: the conversion input is the actions of the structured steps joined
    with nothing between them, so two actions end up on one line. *)
Theorem actions_are_joined_without_separator (rt : runtime) (tc_id : nat)
    (wi : dict) (tc_nl : pystr) (tc_meta : dict) (steps : list StepRecord) :
  compile_nl_tc_from_azure rt tc_id wi = Ok (tc_nl, tc_meta, steps) ->
  tc_nl = strip (concat (filter nonempty (map action steps))).
Proof.
  unfold compile_nl_tc_from_azure. intros H.
  apply bind_ok in H. destruct H as (fields & _ & H).
  apply bind_ok in H. destruct H as (steps_field & _ & H).
  apply bind_ok in H. destruct H as (parsed & _ & H).
  pose proof (collect_steps_lines parsed) as L.
  destruct (collect_steps parsed) as [structured lines].
  simpl in L. inversion H. subst. unfold join_lines, join_empty.
  now rewrite filter_nonempty_idem.
Qed.

Lemma actions_are_joined_without_separator_witness :
  exists tc_meta,
    compile_nl_tc_from_azure reference_runtime 7 two_step_work_item
    = Ok (str "Open AppTap Login", tc_meta,
          [ {| action := str "Open App"; expected := [] |};
            {| action := str "Tap Login"; expected := [] |} ])
    /\ str "Open AppTap Login"
       = strip (concat (filter nonempty
                  (map action [ {| action := str "Open App"; expected := [] |};
                                {| action := str "Tap Login"; expected := [] |} ]))).
Proof.
  eexists. split.
  - vm_compute. reflexivity.
  - eapply (actions_are_joined_without_separator reference_runtime 7
              two_step_work_item).
    vm_compute. reflexivity.
Defined.

(** ** Exceptions of the stage-field parser *)

(** C1: a field with a decimal character reference of more than 4300
    digits makes [html.unescape] raise in strategy B, outside the [try] of
    [_try_parse], whatever the runtime. *)
Theorem parse_raises_on_overlong_reference (rt : runtime) :
  parse_steps_from_tcm_field rt (Some overlong_reference_field)
  = Raise IntStrDigitsLimit.
Proof.
  assert (S : strip overlong_reference_field = overlong_reference_field)
    by (vm_compute; reflexivity).
  assert (C : contains (str "&lt;steps") (lower overlong_reference_field) = true)
    by (vm_compute; reflexivity).
  assert (U : Html.unescape (html5 rt) overlong_reference_field
              = Raise IntStrDigitsLimit)
    by (vm_compute; reflexivity).
  unfold parse_steps_from_tcm_field.
  change overlong_reference_field
    with (chr "&" :: tl overlong_reference_field) at 1.
  cbv iota. change (chr "&" :: tl overlong_reference_field)
    with overlong_reference_field.
  rewrite S. unfold needs_strategy_B. rewrite C, orb_true_r.
  unfold strategy_B. rewrite U. reflexivity.
Qed.

(** ** The scan of [re.sub] *)

Section Pieces.

Variable r : Re.regex.

Lemma pieces_from_skip (m rest : pystr) :
  forall prev,
    Re.pieces_from r (length m) prev (m ++ rest)
    = Re.pieces_from r 0 (prev_after prev m) rest.
Proof.
  induction m as [|c m IH]; intros prev; [reflexivity|].
  simpl. apply IH.
Qed.

(** A match that is not empty gives a hit, and the scan goes on after it. *)
Lemma pieces_from_hit (prev : option N) (x : N) (m rest : pystr) :
  Re.match_at r prev (x :: m ++ rest) = Some rest ->
  Re.pieces_from r 0 prev (x :: m ++ rest)
  = Re.Hit (x :: m) :: Re.pieces_from r 0 (prev_after (Some x) m) rest.
Proof.
  intros H. cbn [Re.pieces_from]. rewrite H.
  replace (length (x :: m ++ rest) - length rest) with (S (length m))
    by (cbn [length]; rewrite length_app; lia).
  change (x :: m ++ rest) with ((x :: m) ++ rest).
  rewrite consumed_app. f_equal. apply pieces_from_skip.
Qed.

Lemma pieces_from_miss (prev : option N) (x : N) (s : pystr) :
  Re.match_at r prev (x :: s) = None ->
  Re.pieces_from r 0 prev (x :: s)
  = Re.Keep x :: Re.pieces_from r 0 (Some x) s.
Proof. intros H. cbn [Re.pieces_from]. now rewrite H. Qed.

(** When what the pattern matches does not depend on the character before
    the match, neither does the scan. *)
Hypothesis prev_irrelevant :
  forall p p' s, Re.match_at r p s = Re.match_at r p' s.

Lemma pieces_from_prev (s : pystr) :
  forall n p p', Re.pieces_from r n p s = Re.pieces_from r n p' s.
Proof.
  induction s as [|c s IH]; intros n p p'.
  - destruct n; [|reflexivity]. simpl. now rewrite (prev_irrelevant p p').
  - destruct n as [|n]; cbn [Re.pieces_from]; [|apply IH].
    rewrite (prev_irrelevant p p').
    destruct (Re.match_at r p' (c :: s)); [|f_equal; apply IH].
    destruct (length (c :: s) - length p0); repeat f_equal; apply IH.
Qed.

Lemma sub_nil (repl : pystr) :
  Re.match_at r None [] = None -> Re.sub r repl [] = [].
Proof. intros H. unfold Re.sub, Re.pieces. simpl. now rewrite H. Qed.

Lemma sub_hit (repl : pystr) (x : N) (m rest : pystr) :
  Re.match_at r None (x :: m ++ rest) = Some rest ->
  Re.sub r repl (x :: m ++ rest) = repl ++ Re.sub r repl rest.
Proof.
  intros H. unfold Re.sub, Re.pieces. rewrite (pieces_from_hit _ _ _ _ H).
  simpl. now rewrite (pieces_from_prev rest 0 _ None).
Qed.

Lemma sub_miss (repl : pystr) (x : N) (s : pystr) :
  Re.match_at r None (x :: s) = None ->
  Re.sub r repl (x :: s) = x :: Re.sub r repl s.
Proof.
  intros H. unfold Re.sub, Re.pieces. rewrite (pieces_from_miss _ _ _ H).
  simpl. now rewrite (pieces_from_prev s 0 _ None).
Qed.

End Pieces.

(** ** The patterns of [_clean] *)

(** The greedy [[^>]+] followed by [>]: up to the first closing bracket. *)
Lemma greedy_run_then_gt (s : pystr) :
  forall lo prev,
    Re.rep (Re.not_ch ">") true lo None prev s
      (fun p s' => Re.exec (Re.Chr (Re.ch ">")) p s' Re.accept)
    = match split_first (chr ">") s with
      | Some (a, b) => if Nat.leb lo (length a) then Some b else None
      | None => None
      end.
Proof.
  induction s as [|x s IH]; intros lo prev.
  - simpl. now destruct lo.
  - cbn [Re.rep split_first Re.exec Re.exhausted negb andb].
    unfold Re.not_ch, Re.ch. rewrite (N.eqb_sym (chr ">") x).
    destruct (N.eqb x (chr ">")) eqn:E; cbn [negb andb].
    + destruct lo; reflexivity.
    + rewrite IH. destruct (split_first (chr ">") s) as [[a b]|]; cbn.
      * destruct lo as [|lo]; cbn; [reflexivity|].
        destruct (Nat.leb lo (length a)); reflexivity.
      * now destruct lo.
Qed.

Lemma tag_re_match (prev : option N) (s : pystr) :
  Re.match_at tag_re prev s = tag_end s.
Proof.
  unfold Re.match_at, tag_re, tag_end, Re.plus. cbn [Re.exec].
  destruct s as [|x t]; [reflexivity|].
  unfold Re.ch at 1. rewrite (N.eqb_sym (chr "<") x).
  destruct (N.eqb x (chr "<")); cbn [andb].
  - rewrite greedy_run_then_gt.
    destruct t as [|y s']; [reflexivity|].
    cbn [split_first]. destruct (N.eqb y (chr ">")); cbn; [reflexivity|].
    now destruct (split_first (chr ">") s') as [[a b]|].
  - now destruct t.
Qed.

(** A greedy quantifier at the end of a pattern takes the longest run. *)
Lemma greedy_run_accept (p : N -> bool) (s : pystr) :
  forall lo prev,
    Re.rep p true lo None prev s Re.accept
    = if Nat.leb lo (length (fst (span p s))) then Some (snd (span p s))
      else None.
Proof.
  induction s as [|x s IH]; intros lo prev.
  - simpl. now destruct lo.
  - cbn [Re.rep span Re.exhausted negb]. rewrite andb_true_r.
    destruct (p x).
    + rewrite IH. destruct (span p s) as [a b]. cbn [fst snd length].
      destruct lo as [|lo]; cbn; [reflexivity|].
      now destruct (Nat.leb lo (length a)).
    + cbn. now destruct lo.
Qed.

(** Where a run of white space at the head of [s] ends. *)
Lemma spaces_re_match (prev : option N) (s : pystr) :
  Re.match_at spaces_re prev s
  = match s with
    | x :: s' => if isspace x then Some (snd (span isspace s')) else None
    | [] => None
    end.
Proof.
  unfold Re.match_at, spaces_re, Re.plus. cbn [Re.exec].
  rewrite greedy_run_accept. destruct s as [|x s']; [reflexivity|].
  cbn [span]. destruct (isspace x); [|reflexivity].
  now destruct (span isspace s').
Qed.

Lemma tag_re_prev (p p' : option N) (s : pystr) :
  Re.match_at tag_re p s = Re.match_at tag_re p' s.
Proof. now rewrite !tag_re_match. Qed.

Lemma spaces_re_prev (p p' : option N) (s : pystr) :
  Re.match_at spaces_re p s = Re.match_at spaces_re p' s.
Proof. now rewrite !spaces_re_match. Qed.

Lemma tag_end_app (s rest : pystr) :
  tag_end s = Some rest -> exists x m, s = x :: m ++ rest.
Proof.
  unfold tag_end. destruct s as [|x [|y s']]; try discriminate.
  destruct (N.eqb x (chr "<") && negb (N.eqb y (chr ">"))); [|discriminate].
  destruct (split_first (chr ">") s') as [[a b]|] eqn:E; [|discriminate].
  cbn. intros H. inversion H. subst b.
  apply split_first_app in E. destruct E as [-> _].
  exists x, (y :: a ++ [chr ">"]). cbn. now rewrite <- app_assoc.
Qed.

(** The three equations of the tag stripping of line 182. *)
Lemma strip_tags_nil : Re.sub tag_re (str " ") [] = [].
Proof. reflexivity. Qed.

Lemma strip_tags_hit (s rest : pystr) :
  tag_end s = Some rest ->
  Re.sub tag_re (str " ") s = 32%N :: Re.sub tag_re (str " ") rest.
Proof.
  intros H. destruct (tag_end_app _ _ H) as (x & m & ->).
  rewrite <- (tag_re_match None) in H.
  now rewrite (sub_hit tag_re tag_re_prev _ _ _ _ H).
Qed.

Lemma strip_tags_miss (x : N) (s : pystr) :
  tag_end (x :: s) = None ->
  Re.sub tag_re (str " ") (x :: s) = x :: Re.sub tag_re (str " ") s.
Proof.
  intros H. rewrite <- (tag_re_match None) in H.
  now rewrite (sub_miss tag_re tag_re_prev _ _ _ H).
Qed.

(** The equations of the white-space collapse of line 183. *)
Lemma collapse_nil : Re.sub spaces_re (str " ") [] = [].
Proof. reflexivity. Qed.

Lemma collapse_hit (x : N) (s : pystr) :
  isspace x = true ->
  Re.sub spaces_re (str " ") (x :: s)
  = 32%N :: Re.sub spaces_re (str " ") (snd (span isspace s)).
Proof.
  intros H.
  assert (M : Re.match_at spaces_re None (x :: s) = Some (snd (span isspace s)))
    by (rewrite spaces_re_match; now rewrite H).
  destruct (span isspace s) as [a b] eqn:E. apply span_app in E.
  cbn [snd] in *. subst s.
  now rewrite (sub_hit spaces_re spaces_re_prev _ _ _ _ M).
Qed.

Lemma collapse_miss (x : N) (s : pystr) :
  isspace x = false ->
  Re.sub spaces_re (str " ") (x :: s) = x :: Re.sub spaces_re (str " ") s.
Proof.
  intros H. apply (sub_miss spaces_re spaces_re_prev).
  rewrite spaces_re_match. now rewrite H.
Qed.

#[local, warnings="-notation-for-abbreviation"]
Notation strip_tags := (Re.sub tag_re (str " ")).
#[local, warnings="-notation-for-abbreviation"]
Notation collapse := (Re.sub spaces_re (str " ")).

Lemma tag_end_length (s rest : pystr) :
  tag_end s = Some rest -> length rest < length s.
Proof.
  intros H. destruct (tag_end_app _ _ H) as (x & m & ->).
  cbn [length]. rewrite length_app. lia.
Qed.

Lemma span_snd_length (p : N -> bool) (s : pystr) :
  length (snd (span p s)) <= length s.
Proof.
  destruct (span p s) as [a b] eqn:E. apply span_app in E. subst s.
  cbn [snd]. rewrite length_app. lia.
Qed.

Lemma span_snd_suffix (p : N -> bool) (s : pystr) : suffix (snd (span p s)) s.
Proof.
  destruct (span p s) as [a b] eqn:E. apply span_suffix in E. exact E.
Qed.

(** Induction on the length of a text. *)
Lemma length_induction (P : pystr -> Prop) :
  (forall s, (forall t, length t < length s -> P t) -> P s) ->
  forall s, P s.
Proof.
  intros H s. remember (length s) as n eqn:E. revert s E.
  induction n as [n IH] using lt_wf_ind. intros s ->.
  apply H. intros t Ht. now apply (IH (length t)).
Qed.

(** Both passes only keep characters of the text or write a space. *)
Lemma strip_tags_chars (s : pystr) :
  forall c, In c (strip_tags s) -> In c s \/ c = 32%N.
Proof.
  induction s as [s IH] using length_induction. intros c.
  destruct s as [|x s']; [intros []|].
  destruct (tag_end (x :: s')) as [rest|] eqn:E.
  - rewrite (strip_tags_hit _ _ E). intros [ <- | Hin ]; [now right|].
    apply IH in Hin; [|now apply tag_end_length].
    destruct Hin as [ Hin | -> ]; [left|now right].
    destruct (tag_end_app _ _ E) as (x' & m & E').
    rewrite E'. right. apply in_or_app. now right.
  - rewrite (strip_tags_miss _ _ E). intros [ <- | Hin ]; [left; now left|].
    apply IH in Hin; [|simpl; lia].
    destruct Hin as [ Hin | -> ]; [left; now right|now right].
Qed.

Lemma in_suffix (c : N) (r s : pystr) : suffix r s -> In c r -> In c s.
Proof. intros [pre ->] H. apply in_or_app. now right. Qed.

Lemma collapse_chars (s : pystr) :
  forall c, In c (collapse s) -> In c s \/ c = 32%N.
Proof.
  induction s as [s IH] using length_induction. intros c.
  destruct s as [|x s']; [intros []|].
  destruct (isspace x) eqn:E.
  - rewrite (collapse_hit _ _ E). intros [ <- | Hin ]; [now right|].
    apply IH in Hin.
    + destruct Hin as [ Hin | -> ]; [left; right|now right].
      eapply in_suffix; [apply span_snd_suffix|exact Hin].
    + pose proof (span_snd_length isspace s'). simpl. lia.
  - rewrite (collapse_miss _ _ E). intros [ <- | Hin ]; [left; now left|].
    apply IH in Hin; [|simpl; lia].
    destruct Hin as [ Hin | -> ]; [left; now right|now right].
Qed.

(** A text [t] put for [s'] after [x] opens no tag when [s'] did not,
    provided [t] has the characters of [s'] or spaces and starts with a
    closing bracket when [s'] does. *)
Lemma tag_end_stable (x : N) (s' t : pystr) :
  tag_end (x :: s') = None ->
  (hd_error s' = Some (chr ">") -> hd_error t = Some (chr ">")) ->
  (forall c, In c t -> In c s' \/ c = 32%N) ->
  tag_end (x :: t) = None.
Proof.
  intros E Hhd Hch. unfold tag_end in *.
  destruct t as [|y' t']; [reflexivity|].
  destruct (N.eqb x (chr "<")); [|reflexivity]. cbn [andb] in *.
  destruct (N.eqb_spec y' (chr ">")) as [ -> | Hy' ]; [reflexivity|].
  cbn [negb].
  assert (Hno : ~ In (chr ">") s').
  { destruct s' as [|y s'']; [intros []|].
    destruct (N.eqb_spec y (chr ">")) as [ -> | Hy ].
    - specialize (Hhd eq_refl). inversion Hhd. contradiction.
    - cbn [negb] in E.
      destruct (split_first (chr ">") s'') as [[a b]|] eqn:E1; [discriminate|].
      apply split_first_none in E1. intros [H|H]; [now apply Hy|now apply E1]. }
  assert (Hno' : split_first (chr ">") t' = None).
  { apply split_first_none. intros Hin.
    destruct (Hch (chr ">")) as [H|H]; [now right|now apply Hno|].
    vm_compute in H. discriminate H. }
  now rewrite Hno'.
Qed.

Lemma tagfree_cons (x : N) (s : pystr) :
  tagfree (x :: s) = true <-> tag_end (x :: s) = None /\ tagfree s = true.
Proof.
  cbn [tagfree]. destruct (tag_end (x :: s)).
  - split; [discriminate|]. intros [H _]. discriminate H.
  - tauto.
Qed.

Lemma strip_tags_head_gt (s : pystr) :
  hd_error s = Some (chr ">") -> hd_error (strip_tags s) = Some (chr ">").
Proof.
  destruct s as [|x s']; [discriminate|]. cbn [hd_error].
  intros H. inversion H. subst x.
  now rewrite strip_tags_miss by (now destruct s').
Qed.

Lemma collapse_head (s : pystr) (x : N) :
  hd_error s = Some x -> isspace x = false ->
  hd_error (collapse s) = Some x.
Proof.
  destruct s as [|y s']; [discriminate|]. cbn [hd_error].
  intros H E. inversion H. subst y. now rewrite collapse_miss.
Qed.

(** After the tag stripping no tag is left. *)
Lemma strip_tags_tagfree (s : pystr) : tagfree (strip_tags s) = true.
Proof.
  induction s as [s IH] using length_induction.
  destruct s as [|x s']; [reflexivity|].
  destruct (tag_end (x :: s')) as [rest|] eqn:E.
  - rewrite (strip_tags_hit _ _ E). apply tagfree_cons. split.
    + unfold tag_end. now destruct (strip_tags rest).
    + apply IH. now apply tag_end_length.
  - rewrite (strip_tags_miss _ _ E). apply tagfree_cons. split.
    + apply (tag_end_stable x s'); [exact E|apply strip_tags_head_gt|].
      apply strip_tags_chars.
    + apply IH. simpl. lia.
Qed.

Lemma tagfree_suffix (r s : pystr) :
  suffix r s -> tagfree s = true -> tagfree r = true.
Proof.
  intros [pre ->]. induction pre as [|x pre IH]; [auto|].
  intros H. apply tagfree_cons in H. tauto.
Qed.

(** The white-space collapse makes no tag. *)
Lemma collapse_tagfree (s : pystr) :
  tagfree s = true -> tagfree (collapse s) = true.
Proof.
  induction s as [s IH] using length_induction. intros H.
  destruct s as [|x s']; [reflexivity|].
  destruct (isspace x) eqn:E.
  - rewrite (collapse_hit _ _ E). apply tagfree_cons. split.
    + unfold tag_end. now destruct (collapse _).
    + apply IH.
      * pose proof (span_snd_length isspace s'). simpl. lia.
      * eapply tagfree_suffix; [|exact H].
        apply suffix_cons, span_snd_suffix.
  - rewrite (collapse_miss _ _ E). apply tagfree_cons in H.
    destruct H as [H1 H2]. apply tagfree_cons. split.
    + apply (tag_end_stable x s'); [exact H1| |apply collapse_chars].
      intros Hd. apply collapse_head; [exact Hd|reflexivity].
    + apply IH; [simpl; lia|exact H2].
Qed.

(** A text without a tag is left as it is by the tag stripping. *)
Lemma strip_tags_fixed (s : pystr) : tagfree s = true -> strip_tags s = s.
Proof.
  induction s as [|x s IH]; [reflexivity|].
  intros H. apply tagfree_cons in H. destruct H as [H1 H2].
  now rewrite strip_tags_miss, IH.
Qed.

Lemma span_snd_head (p : N -> bool) (s : pystr) (z : N) (u : pystr) :
  snd (span p s) = z :: u -> p z = false.
Proof.
  induction s as [|x s IH]; [discriminate|].
  cbn [span]. destruct (p x) eqn:E.
  - destruct (span p s) as [a b]. exact IH.
  - cbn [snd]. intros H. inversion H. now subst.
Qed.

Lemma span_no_run (s : pystr) :
  starts_space s = false -> span isspace s = ([], s).
Proof.
  destruct s as [|x s]; [reflexivity|]. cbn [starts_space span].
  now intros ->.
Qed.

(** After the collapse white space is normalized. *)
Lemma collapse_wsnorm (s : pystr) : wsnorm (collapse s) = true.
Proof.
  induction s as [s IH] using length_induction.
  destruct s as [|x s']; [reflexivity|].
  destruct (isspace x) eqn:E.
  - rewrite (collapse_hit _ _ E). cbn [wsnorm].
    change (isspace 32) with true. cbv iota. rewrite N.eqb_refl.
    rewrite IH by (pose proof (span_snd_length isspace s'); simpl; lia).
    rewrite andb_true_r. cbn [andb].
    destruct (snd (span isspace s')) as [|z u] eqn:R; [reflexivity|].
    apply span_snd_head in R. rewrite (collapse_miss _ _ R).
    cbn [starts_space]. now rewrite R.
  - rewrite (collapse_miss _ _ E). cbn [wsnorm]. rewrite E.
    apply IH. simpl. lia.
Qed.

(** A text with normalized white space is left as it is by the collapse. *)
Lemma collapse_fixed (s : pystr) : wsnorm s = true -> collapse s = s.
Proof.
  induction s as [|x s IH]; [reflexivity|].
  cbn [wsnorm]. intros H. apply andb_prop in H. destruct H as [H1 H2].
  destruct (isspace x) eqn:E.
  - apply andb_prop in H1. destruct H1 as [Hx Hs].
    apply N.eqb_eq in Hx. subst x.
    rewrite (collapse_hit _ _ E), span_no_run
      by (now destruct (starts_space s)).
    cbn [snd]. now rewrite IH.
  - now rewrite (collapse_miss _ _ E), IH.
Qed.

(** [str.strip] keeps both properties. *)
Lemma wsnorm_tail (x : N) (s : pystr) : wsnorm (x :: s) = true -> wsnorm s = true.
Proof. cbn [wsnorm]. intros H. now apply andb_prop in H. Qed.

Lemma lstrip_wsnorm (s : pystr) : wsnorm s = true -> wsnorm (lstrip s) = true.
Proof.
  induction s as [|x s IH]; [reflexivity|].
  intros H. cbn [lstrip]. destruct (isspace x); [|exact H].
  apply IH. eapply wsnorm_tail. exact H.
Qed.

Lemma rstrip_wsnorm (s : pystr) : wsnorm s = true -> wsnorm (rstrip s) = true.
Proof.
  induction s as [|x s IH]; [reflexivity|].
  intros H. pose proof (wsnorm_tail _ _ H) as Ht. specialize (IH Ht).
  cbn [rstrip]. destruct (rstrip s) as [|y u] eqn:R.
  - destruct (isspace x) eqn:E; [reflexivity|]. cbn [wsnorm]. now rewrite E.
  - destruct (rstrip_head _ _ _ R) as [t' ->].
    cbn [wsnorm] in H |- *. apply andb_prop in H. destruct H as [H1 _].
    cbn [starts_space] in H1 |- *. rewrite H1.
    exact IH.
Qed.

Lemma rstrip_in (c : N) (s : pystr) : In c (rstrip s) -> In c s.
Proof.
  destruct (rstrip_prefix s) as [r E]. intros H. rewrite E.
  apply in_or_app. now left.
Qed.

Lemma lstrip_tagfree (s : pystr) : tagfree s = true -> tagfree (lstrip s) = true.
Proof. apply tagfree_suffix, lstrip_suffix. Qed.

Lemma rstrip_tagfree (s : pystr) : tagfree s = true -> tagfree (rstrip s) = true.
Proof.
  induction s as [|x s IH]; [reflexivity|].
  intros H. apply tagfree_cons in H. destruct H as [H1 H2].
  specialize (IH H2). cbn [rstrip]. destruct (rstrip s) as [|y u] eqn:R.
  - now destruct (isspace x).
  - apply tagfree_cons. split; [|exact IH].
    apply (tag_end_stable x s); [exact H1| |].
    + destruct (rstrip_head _ _ _ R) as [t' ->]. auto.
    + intros c Hin. left. apply rstrip_in. now rewrite R.
Qed.

Lemma strip_idempotent (s : pystr) : strip (strip s) = strip s.
Proof.
  unfold strip.
  assert (L : lstrip (rstrip (lstrip s)) = rstrip (lstrip s)).
  { destruct (rstrip (lstrip s)) as [|c t] eqn:E; [reflexivity|].
    destruct (rstrip_head _ _ _ E) as [t' E'].
    apply lstrip_head in E'. cbn [lstrip]. now rewrite E'. }
  rewrite L. apply rstrip_idempotent.
Qed.

(** ** Cleaning twice *)

(** C5, counterexample: the text [&#38;#38;] cleans to [&#38;], which
    cleans to [&]; no runtime makes the two results equal. *)
Lemma clean_twice_differs :
  _clean reference_runtime (str "&#38;#38;") = Ok (str "&#38;")
  /\ clean_twice reference_runtime (str "&#38;#38;") = Ok (str "&")
  /\ ~ exists rt, clean_twice rt (str "&#38;#38;") = _clean rt (str "&#38;#38;").
Proof.
  split; [reflexivity|]. split; [reflexivity|].
  intros [rt H]. vm_compute in H. discriminate H.
Qed.

(** C5, as amended: when the HTML-entity unescape leaves the cleaned text
    as it is, cleaning it again gives the same text, so cleaning twice is
    cleaning once: tag stripping, white-space collapse and trim are stable
    under repetition. A cleaned text without an ampersand is such a text,
    and so is one whose ampersands start no character reference. *)
Theorem clean_idempotent_when_unescaped (rt : runtime) (x r : pystr) :
  _clean rt x = Ok r ->
  (Html.unescape (html5 rt) r = Ok r ->
   _clean rt r = Ok r /\ clean_twice rt x = _clean rt x)
  /\ (mem (chr "&") r = false -> Html.unescape (html5 rt) r = Ok r).
Proof.
  intros H. split.
  - intros Hun.
    assert (C : _clean rt r = Ok r).
    { unfold _clean in H |- *.
      apply bind_ok in H. destruct H as (u & _ & H).
      assert (Hr : strip (collapse (strip_tags u)) = r) by congruence.
      clear H.
      assert (Tf : tagfree r = true).
      { rewrite <- Hr. unfold strip.
        apply rstrip_tagfree, lstrip_tagfree, collapse_tagfree,
          strip_tags_tagfree. }
      assert (Wn : wsnorm r = true).
      { rewrite <- Hr. unfold strip.
        apply rstrip_wsnorm, lstrip_wsnorm, collapse_wsnorm. }
      assert (St : strip r = r).
      { rewrite <- Hr. apply strip_idempotent. }
      rewrite Hun. cbn [bind].
      now rewrite (strip_tags_fixed _ Tf), (collapse_fixed _ Wn), St. }
    split; [exact C|].
    unfold clean_twice. rewrite H. cbn [bind]. exact C.
  - intros Hamp. unfold Html.unescape. now rewrite Hamp.
Qed.

Lemma clean_idempotent_when_unescaped_witness :
  _clean reference_runtime (str "Terms &amp; Conditions")
  = Ok (str "Terms & Conditions")
  /\ _clean reference_runtime (str "Terms & Conditions")
     = Ok (str "Terms & Conditions")
  /\ clean_twice reference_runtime (str "Terms &amp; Conditions")
     = _clean reference_runtime (str "Terms &amp; Conditions").
Proof.
  split; [reflexivity|].
  destruct (clean_idempotent_when_unescaped reference_runtime
              (str "Terms &amp; Conditions") (str "Terms & Conditions"))
    as [Hfix _]; [reflexivity|].
  apply Hfix. reflexivity.
Defined.

(** * Further properties of the code *)

(** ** [validate_payload] *)

Lemma filter_negb_nil {A : Type} (f : A -> bool) (l : list A) :
  filter (fun x => negb (f x)) l = [] <-> forallb f l = true.
Proof.
  induction l as [|x l IH]; simpl; [tauto|].
  destruct (f x); simpl; [exact IH|].
  split; discriminate.
Qed.

Lemma validate_step_ok (i : nat) (st : pyval) :
  validate_step i st = Ok tt <-> step_well_shaped st = true.
Proof.
  unfold validate_step, step_well_shaped.
  destruct st; try (split; discriminate).
  destruct (filter _ config.REQUIRED_STEP_KEYS) as [|k ks] eqn:F.
  - apply filter_negb_nil in F. rewrite F. cbn [andb].
    destruct (dict_get (str "params") d) as [[]|]; split;
      try discriminate; reflexivity.
  - assert (N : forallb (fun k => dict_has k d) config.REQUIRED_STEP_KEYS
                = false).
    { destruct (forallb _ config.REQUIRED_STEP_KEYS) eqn:E; [|reflexivity].
      apply filter_negb_nil in E. congruence. }
    rewrite N. split; discriminate.
Qed.

Lemma validate_steps_ok (steps : list pyval) :
  forall i, validate_steps i steps = Ok tt
            <-> forallb step_well_shaped steps = true.
Proof.
  induction steps as [|st rest IH]; intros i; cbn [validate_steps forallb].
  - tauto.
  - destruct (validate_step i st) as [[]|e] eqn:V; cbn [bind].
    + apply validate_step_ok in V. rewrite V. cbn [andb]. apply IH.
    + assert (N : step_well_shaped st = false).
      { destruct (step_well_shaped st) eqn:E; [|reflexivity].
        apply (validate_step_ok i) in E. congruence. }
      rewrite N. split; discriminate.
Qed.

(** X1: [validate_payload] accepts exactly the payloads that hold every
    required top-level key and a non-empty list of well-shaped steps. *)
Theorem validate_payload_accepts_iff (payload : dict) :
  validate_payload payload = Ok tt <-> payload_well_shaped payload = true.
Proof.
  unfold validate_payload, payload_well_shaped.
  destruct (filter _ config.REQUIRED_TOP_LEVEL_KEYS) as [|k ks] eqn:F.
  - apply filter_negb_nil in F. rewrite F. cbn [andb].
    destruct (dict_get (str "automated_steps") payload) as [[]|];
      try (split; discriminate).
    destruct l as [|st rest]; [split; discriminate|].
    apply validate_steps_ok.
  - assert (N : forallb (fun k => dict_has k payload)
                        config.REQUIRED_TOP_LEVEL_KEYS = false).
    { destruct (forallb _ config.REQUIRED_TOP_LEVEL_KEYS) eqn:E; [|reflexivity].
      apply filter_negb_nil in E. congruence. }
    rewrite N. split; discriminate.
Qed.

(** X2: the check of the top-level keys comes first and reports exactly the
    required keys that the payload lacks, in the order of the configuration;
    a payload that lacks a required key is rejected with that report. *)
Theorem validate_payload_reports_missing_keys (payload : dict) :
  (forall missing,
      validate_payload payload = Raise (MissingTopLevelKeys missing) ->
      missing = filter (fun k => negb (dict_has k payload))
                       config.REQUIRED_TOP_LEVEL_KEYS
      /\ forall k, In k missing
                   <-> In k config.REQUIRED_TOP_LEVEL_KEYS
                       /\ dict_has k payload = false)
  /\ (forall k,
         In k config.REQUIRED_TOP_LEVEL_KEYS -> dict_has k payload = false ->
         exists missing,
           validate_payload payload = Raise (MissingTopLevelKeys missing)
           /\ In k missing).
Proof.
  split.
  - intros missing H. unfold validate_payload in H.
    destruct (filter _ config.REQUIRED_TOP_LEVEL_KEYS) as [|k0 ks] eqn:F.
    + destruct (dict_get _ payload) as [[]|]; try discriminate.
      destruct l as [|st rest]; [discriminate|].
      exfalso. revert H. generalize 0. generalize (st :: rest).
      induction l as [|s l IH]; intros n; cbn [validate_steps];
        [discriminate|].
      destruct (validate_step n s) as [[]|e] eqn:V; cbn [bind]; [apply IH|].
      intros H. inversion H. subst e.
      unfold validate_step in V.
      destruct s; try discriminate.
      destruct (filter _ config.REQUIRED_STEP_KEYS); [|discriminate].
      destruct (dict_get _ d) as [[]|]; discriminate.
    + inversion H. subst missing. split; [reflexivity|].
      intros k. rewrite <- F, filter_In, negb_true_iff. tauto.
  - intros k Hin Hk. unfold validate_payload.
    assert (Hf : In k (filter (fun k => negb (dict_has k payload))
                              config.REQUIRED_TOP_LEVEL_KEYS)).
    { apply filter_In. split; [assumption|now rewrite Hk]. }
    destruct (filter _ config.REQUIRED_TOP_LEVEL_KEYS) as [|k0 ks];
      [contradiction|eauto].
Qed.

Lemma validate_payload_reports_missing_keys_witness :
  exists missing,
    validate_payload [(str "name", PStr (str "t"))]
    = Raise (MissingTopLevelKeys missing)
    /\ In (str "tags") missing.
Proof.
  apply (proj2 (validate_payload_reports_missing_keys
                  [(str "name", PStr (str "t"))]) (str "tags")).
  - vm_compute. tauto.
  - reflexivity.
Defined.




(** ** The errors of the JSON scanner *)

Lemma suffix_length (r s : pystr) : suffix r s -> length r <= length s.
Proof. intros [pre ->]. rewrite length_app. lia. Qed.

Lemma bind_raise {A B : Type} (m : result A) (f : A -> result B) (e : exn) :
  bind m f = Raise e -> m = Raise e \/ exists a, m = Ok a /\ f a = Raise e.
Proof. destruct m; simpl; [eauto|intros H; left; congruence]. Qed.

Lemma cons_result_raise (c : N) (r : result (pystr * pystr)) (e : exn) :
  cons_result c r = Raise e -> r = Raise e.
Proof. destruct r as [[o r']|]; simpl; [discriminate|trivial]. Qed.

Lemma scanstring_raises (s : pystr) :
  forall e, scanstring s = Raise e -> decoder_error e = true.
Proof.
  functional induction (scanstring s); intros e' H;
    try discriminate H;
    try (injection H as <-; reflexivity);
    apply cons_result_raise in H; now apply IHr.
Qed.

Lemma scanstring_shorter (s : pystr) :
  forall out rest, scanstring s = Ok (out, rest) -> length rest < length s.
Proof.
  functional induction (scanstring s); intros out rest H;
    try discriminate H.
  1: { inversion H. subst. cbn [length]. lia. }
  all: apply cons_result_ok in H; destruct H as [o' H']; apply IHr in H';
    cbn [length] in *; lia.
Qed.

Lemma match_number_raises (s : pystr) (e : exn) (rest : pystr) :
  match_number s = Some (Raise e, rest) -> decoder_error e = true.
Proof.
  unfold match_number, parse_int, py_int, bind. intros H.
  repeat break_in H; inversion H; subst;
    match goal with
    | E : (if ?c then _ else _) = Raise _ |- _ =>
        destruct c; [injection E as <-; reflexivity|discriminate E]
    end.
Qed.

(** From [Raise a = Raise e]: the error is the decoder's. *)
Ltac raised H := injection H as <-; reflexivity.

(** With more fuel than the text is long, the scanner raises an error of
    the decoder only: the bound of the model is not reached. *)
Lemma scanner_fuel (n : nat) :
  (forall depth s e,
      length s < n -> scan_once n depth s = Raise e -> decoder_error e = true)
  /\ (forall depth s ps e,
         length s < n -> object_members n depth s ps = Raise e ->
         decoder_error e = true)
  /\ (forall depth s vs e,
         length s < n -> array_rest n depth s vs = Raise e ->
         decoder_error e = true).
Proof.
  induction n as [|n (IHscan & IHobj & IHarr)].
  - repeat split; intros; lia.
  - split; [|split].
    + intros depth s e L H. cbn [scan_once] in H.
      destruct s as [|c s']; [raised H|].
      cbn [length] in L.
      destruct (N.eqb c DQUOTE).
      { apply bind_raise in H. destruct H as [H|([k rest] & _ & H)];
          [|discriminate H].
        eapply scanstring_raises; eassumption. }
      destruct (N.eqb c (chr "{")).
      { destruct depth as [|depth']; [raised H|].
        match type of H with
        | match ?x with _ => _ end = _ => set (s1 := x) in H
        end.
        assert (H1 : suffix s1 s').
        { subst s1.
          destruct (startswith _ s'); [apply suffix_refl|apply suffix_skip_ws]. }
        clearbody s1. destruct s1 as [|q s2]; [raised H|].
        apply suffix_length in H1. cbn [length] in H1.
        destruct (N.eqb q (chr "}")); [discriminate H|].
        destruct (N.eqb q DQUOTE); [|raised H].
        apply bind_raise in H. destruct H as [H|([pairs rest] & _ & H)];
          [|discriminate H].
        apply IHobj in H; [exact H|lia]. }
      destruct (N.eqb c (chr "[")).
      { destruct depth as [|depth']; [raised H|].
        destruct (startswith (str "]") (skip_ws s')); [discriminate H|].
        pose proof (suffix_length _ _ (suffix_skip_ws s')) as Hw.
        apply bind_raise in H. destruct H as [H|([v0 rest0] & E0 & H)].
        { apply IHscan in H; [exact H|lia]. }
        apply bind_raise in H. destruct H as [H|([values rest'] & _ & H)];
          [|discriminate H].
        apply (proj1 (scanner_suffix n)) in E0. apply suffix_length in E0.
        apply IHarr in H; [exact H|lia]. }
      destruct (startswith (str "null") (c :: s')); [discriminate H|].
      destruct (startswith (str "true") (c :: s')); [discriminate H|].
      destruct (startswith (str "false") (c :: s')); [discriminate H|].
      destruct (match_number (c :: s')) as [[r0 rest0]|] eqn:E.
      { apply bind_raise in H. destruct H as [H|(v0 & _ & H)];
          [|discriminate H].
        subst r0. eapply match_number_raises; eassumption. }
      destruct (startswith (str "NaN") (c :: s')); [discriminate H|].
      destruct (startswith (str "Infinity") (c :: s')); [discriminate H|].
      destruct (startswith (str "-Infinity") (c :: s')); [discriminate H|].
      raised H.
    + intros depth s ps e L H. cbn [object_members] in H.
      apply bind_raise in H. destruct H as [H|([key s1] & Ekey & H)].
      { eapply scanstring_raises; eassumption. }
      apply scanstring_shorter in Ekey.
      set (s2 := if startswith (str ":") s1 then s1 else skip_ws s1) in H.
      assert (H2 : length s2 <= length s1).
      { subst s2. destruct (startswith (str ":") s1); [lia|].
        apply suffix_length, suffix_skip_ws. }
      clearbody s2.
      destruct (negb (startswith (str ":") s2)); [raised H|].
      assert (H3 : length (skip_ws (tl s2)) <= length s2).
      { eapply suffix_length, suffix_trans;
          [apply suffix_skip_ws|apply suffix_tl]. }
      apply bind_raise in H. destruct H as [H|([value s3] & Eval & H)].
      { apply IHscan in H; [exact H|lia]. }
      apply (proj1 (scanner_suffix n)) in Eval. apply suffix_length in Eval.
      pose proof (suffix_length _ _ (suffix_skip_ws s3)) as H4.
      destruct (skip_ws s3) as [|d s4]; [raised H|].
      cbn [length] in H4.
      destruct (N.eqb d (chr "}")); [discriminate H|].
      destruct (N.eqb d (chr ",")); [|raised H].
      pose proof (suffix_length _ _ (suffix_skip_ws s4)) as H5.
      destruct (skip_ws s4) as [|q s5]; [raised H|].
      cbn [length] in H5.
      destruct (N.eqb q DQUOTE); [|raised H].
      apply IHobj in H; [exact H|lia].
    + intros depth s vs e L H. cbn [array_rest] in H.
      pose proof (suffix_length _ _ (suffix_skip_ws s)) as H0.
      destruct (skip_ws s) as [|d s1]; [raised H|].
      cbn [length] in H0.
      destruct (N.eqb d (chr "]")); [discriminate H|].
      destruct (N.eqb d (chr ",")); [|raised H].
      pose proof (suffix_length _ _ (suffix_skip_ws s1)) as H1.
      apply bind_raise in H. destruct H as [H|([v rest] & E & H)].
      { apply IHscan in H; [exact H|lia]. }
      apply (proj1 (scanner_suffix n)) in E. apply suffix_length in E.
      apply IHarr in H; [exact H|lia].
Qed.

(** [json.loads] raises [JSONDecodeError], the [ValueError] of [int] or
    [RecursionError], and nothing else. *)
Lemma loads_raises (limit : nat) (s : pystr) (e : exn) :
  Json.loads limit s = Raise e -> decoder_error e = true.
Proof.
  unfold Json.loads, decode. destruct (startswith _ s); [intros H; raised H|].
  intros H. apply bind_raise in H. destruct H as [H|([obj rest] & _ & H)].
  - apply (proj1 (scanner_fuel (S (length s)))) in H; [exact H|].
    pose proof (suffix_length _ _ (suffix_skip_ws s)). lia.
  - destruct (skip_ws rest); [discriminate H|raised H].
Qed.

(** ** [extract_json_object] *)

Lemma extract_fallback_raises (limit : nat) (text : pystr) (e : exn) :
  extract_fallback limit text = Raise e ->
  e = NoJsonFound \/ decoder_error e = true.
Proof.
  unfold extract_fallback. rewrite search_json_object.
  destruct (first_to_last_brace text) as [[[b region] a]|] eqn:R.
  - apply first_to_last_brace_spec in R.
    destruct R as (_ & _ & _ & inside & ->).
    intros H. apply bind_raise in H. destruct H as [H|(obj & L & H)].
    + right. eapply loads_raises. exact H.
    + apply loads_object_is_dict in L. destruct obj; discriminate.
  - intros H. left. congruence.
Qed.

(** X4: [extract_json_object] raises the "no JSON object found" error or an
    exception of [json.loads] (a decode error, the [ValueError] of an
    integer that is too long, [RecursionError]) and nothing else: the error
    of line 64 is always caught, and that of line 76 is never raised. *)
Theorem extract_json_object_raises (limit : nat) (text : option pystr)
    (e : exn) :
  extract_json_object limit text = Raise e ->
  (e = NoJsonFound \/ decoder_error e = true)
  /\ e <> NotAnObject /\ e <> TopLevelNotObject.
Proof.
  intros H.
  assert (D : e = NoJsonFound \/ decoder_error e = true).
  { unfold extract_json_object in H.
    destruct (Json.loads limit _) as [v|e'];
      cbn [bind try_except] in H.
    - destruct v; cbn [try_except] in H; try discriminate H;
        eapply extract_fallback_raises; exact H.
    - eapply extract_fallback_raises; exact H. }
  split; [exact D|].
  split; intros ->; destruct D as [D|D]; discriminate D.
Qed.

Lemma extract_json_object_raises_witness :
  (RecursionError = NoJsonFound \/ decoder_error RecursionError = true)
  /\ RecursionError <> NotAnObject /\ RecursionError <> TopLevelNotObject.
Proof.
  apply (extract_json_object_raises 3 (Some (qstr "{'a': [[[1]]]}"))).
  reflexivity.
Defined.

(** X5: the extraction is the brace search on the trimmed text, whatever
    the direct attempt of lines 60-66 gives: when the whole text decodes to
    an object, the braced region is the whole text. *)
Theorem extract_json_object_is_fallback (limit : nat) (text : pystr) :
  extract_json_object limit (Some text) = extract_fallback limit (strip text).
Proof.
  unfold extract_json_object.
  destruct (Json.loads limit (strip text)) as [v|e] eqn:D;
    cbn [bind try_except]; [|reflexivity].
  destruct v; try reflexivity. cbn [try_except].
  rewrite (extract_fallback_region _ _ _ _ _ (loads_dict_region _ _ _ D)), D.
  reflexivity.
Qed.

(** X6: white space around the text does not matter to the extraction. *)
Theorem extract_json_object_strip (limit : nat) (text : pystr) :
  extract_json_object limit (Some (strip text))
  = extract_json_object limit (Some text)
  /\ extract_json_object limit None = Raise NoJsonFound.
Proof.
  split.
  - unfold extract_json_object. now rewrite strip_idempotent.
  - unfold extract_json_object.
    change (strip []) with (@nil N).
    destruct limit; reflexivity.
Qed.

(** ** [ensure_step_defaults] *)

(** X7: what a repaired step holds under each key: a truthy id, a keyword
    that is not null and a list of params are kept as they are; a missing or
    falsy id becomes "S" and the position in three digits, a missing or null
    keyword the empty string, missing or null params the empty list, and
    any other params the list of that one value; every other key of the step
    keeps its value. *)
Theorem repair_step_lookup (i : nat) (st : dict) :
  dict_get (str "id") (repair_step i st)
  = Some (match dict_get (str "id") st with
          | Some v => if truthy v then v else PStr (str "S" ++ format_03d i)
          | None => PStr (str "S" ++ format_03d i)
          end)
  /\ dict_get (str "keyword") (repair_step i st)
     = Some (match dict_get (str "keyword") st with
             | Some PNone | None => PStr []
             | Some v => v
             end)
  /\ dict_get (str "params") (repair_step i st)
     = Some (match dict_get (str "params") st with
             | Some PNone | None => PList []
             | Some (PList l) => PList l
             | Some v => PList [v]
             end)
  /\ forall k,
       k <> str "id" -> k <> str "keyword" -> k <> str "params" ->
       dict_get k (repair_step i st) = dict_get k st.
Proof.
  unfold repair_step.
  set (st1 := match dict_get (str "id") st with
              | Some v => if truthy v then st else _
              | None => _
              end).
  assert (I1 : dict_get (str "id") st1
               = Some (match dict_get (str "id") st with
                       | Some v => if truthy v then v
                                   else PStr (str "S" ++ format_03d i)
                       | None => PStr (str "S" ++ format_03d i)
                       end)).
  { subst st1. destruct (dict_get (str "id") st) as [v|] eqn:E.
    - destruct (truthy v); [exact E|apply dict_get_set_same].
    - apply dict_get_set_same. }
  assert (O1 : forall k, k <> str "id" -> dict_get k st1 = dict_get k st).
  { intros k Hk. subst st1. destruct (dict_get (str "id") st) as [v|].
    - destruct (truthy v); [reflexivity|now apply dict_get_set_other].
    - now apply dict_get_set_other. }
  clearbody st1.
  set (st2 := match dict_get (str "keyword") st1 with
              | Some PNone | None => _
              | Some _ => st1
              end).
  assert (K2 : dict_get (str "keyword") st2
               = Some (match dict_get (str "keyword") st with
                       | Some PNone | None => PStr []
                       | Some v => v
                       end)).
  { subst st2. rewrite <- (O1 (str "keyword")) by keys_differ.
    destruct (dict_get (str "keyword") st1) as [v|] eqn:E.
    - destruct v; try exact E; apply dict_get_set_same.
    - apply dict_get_set_same. }
  assert (O2 : forall k, k <> str "keyword" -> dict_get k st2 = dict_get k st1).
  { intros k Hk. subst st2. destruct (dict_get (str "keyword") st1) as [v|].
    - destruct v; try reflexivity; now apply dict_get_set_other.
    - now apply dict_get_set_other. }
  clearbody st2.
  assert (P2 : dict_get (str "params") st2 = dict_get (str "params") st).
  { rewrite O2, O1 by keys_differ. reflexivity. }
  rewrite <- P2.
  assert (I2 : dict_get (str "id") st2 = dict_get (str "id") st1)
    by (apply O2; keys_differ).
  split; [|split; [|split]].
  - rewrite <- I1, <- I2.
    destruct (dict_get (str "params") st2) as [[]|]; dict_simpl; reflexivity.
  - rewrite <- K2.
    destruct (dict_get (str "params") st2) as [[]|]; dict_simpl; reflexivity.
  - destruct (dict_get (str "params") st2) as [[]|] eqn:E;
      rewrite ?dict_get_set_same; try reflexivity; exact E.
  - intros k H1 H2 H3.
    rewrite <- (O1 k H1), <- (O2 k H2).
    destruct (dict_get (str "params") st2) as [[]|];
      try reflexivity; now apply dict_get_set_other.
Qed.

(** X8: the step at index [j] of [automated_steps] is repaired with the
    position [j + 1], whatever stands before it, entries that are no
    mappings included; so a step without an id at index [j] gets the id "S"
    and [j + 1] in three digits. *)
Theorem ensure_step_defaults_at (payload : dict) (steps : list pyval)
    (j : nat) (st : dict) :
  dict_get (str "automated_steps") payload = Some (PList steps) ->
  nth_error steps j = Some (PDict st) ->
  exists steps',
    dict_get (str "automated_steps") (ensure_step_defaults payload)
    = Some (PList steps')
    /\ nth_error steps' j = Some (PDict (repair_step (S j) st))
    /\ (dict_get (str "id") st = None ->
        dict_get (str "id") (repair_step (S j) st)
        = Some (PStr (str "S" ++ format_03d (S j)))).
Proof.
  intros Hs Hn. exists (repair_steps 1 steps).
  unfold ensure_step_defaults. rewrite Hs, dict_get_set_same.
  split; [reflexivity|].
  rewrite repair_steps_nth, Hn. cbn [option_map Nat.add].
  split; [reflexivity|].
  intros Hid.
  rewrite (proj1 (repair_step_lookup (S j) st)), Hid. reflexivity.
Qed.

Lemma ensure_step_defaults_at_witness :
  exists steps',
    dict_get (str "automated_steps") (ensure_step_defaults noisy_payload)
    = Some (PList steps')
    /\ nth_error steps' 1
       = Some (PDict (repair_step 2 [(str "keyword", PStr (str "tap"))]))
    /\ (dict_get (str "id") [(str "keyword", PStr (str "tap"))] = None ->
        dict_get (str "id") (repair_step 2 [(str "keyword", PStr (str "tap"))])
        = Some (PStr (str "S" ++ format_03d 2))).
Proof.
  exact (ensure_step_defaults_at noisy_payload
           [PStr (str "noise"); PDict [(str "keyword", PStr (str "tap"))]]
           1 [(str "keyword", PStr (str "tap"))] eq_refl eq_refl).
Defined.
